(** * Event-commitment pipeline of [eventapp.py]

    A shallow embedding of the Merkle engine ([pad32], [keccak_pair],
    [build_merkle_tree], [merkle_root], [merkle_proof], [verify_proof]) and of
    the leaf encoder ([build_event_leaf]), followed by the properties the
    specification states about them.

    Python values are modelled as follows: [bytes] is a list of bytes, [int] is
    [Z], [str] is [string], a list is a list, and a raised exception is the
    [Raise] branch of [result]. *)

From Equations Require Import Equations.
From Stdlib Require Import String Ascii DecimalString DecimalZ.
From Stdlib Require Import ZArith Lia Bool List.
From Stdlib.Strings Require Import Byte.
Import ListNotations.

Set Implicit Arguments.
Open Scope Z_scope.

(** ** Python values *)

Definition bytes := list byte.

(** The built-in exceptions the modelled functions can raise. *)
Inductive exn : Type :=
| ValueError
| IndexError
| OverflowError.

Inductive result (A : Type) : Type :=
| Ok (a : A)
| Raise (e : exn).
Arguments Ok {A} a.
Arguments Raise {A} e.

Definition bind {A B : Type} (r : result A) (k : A -> result B) : result B :=
  match r with
  | Ok a => k a
  | Raise e => Raise e
  end.

Notation "x <- r ;; k" := (bind r (fun x => k))
  (at level 61, r at next level, right associativity).

(** [len(l)]. *)
Definition len {A : Type} (l : list A) : Z := Z.of_nat (length l).

(** [l[i]] on a Python list: a negative index counts from the end, and an
    index outside [-len(l), len(l))] raises [IndexError]. *)
Definition py_index {A : Type} (l : list A) (i : Z) : result A :=
  let j := if i <? 0 then i + len l else i in
  if (j <? 0) || (len l <=? j) then Raise IndexError
  else match nth_error l (Z.to_nat j) with
       | Some a => Ok a
       | None => Raise IndexError
       end.

(** [l[:-1]]: every element but the last; the empty list for an empty list. *)
Definition slice_init {A : Type} (l : list A) : list A :=
  firstn (length l - 1) l.

(** [s[2:]] on a string. *)
Definition str_from2 (s : string) : string :=
  match s with
  | String _ (String _ rest) => rest
  | _ => EmptyString
  end.

(** [a == b] on bytes. *)
Fixpoint bytes_eqb (a b : bytes) : bool :=
  match a, b with
  | [], [] => true
  | x :: a', y :: b' => Byte.eqb x y && bytes_eqb a' b'
  | _, _ => false
  end.

Definition byte_of_Z (z : Z) : byte :=
  match Byte.of_N (Z.to_N (z mod 256)) with
  | Some b => b
  | None => x00
  end.

Definition Z_of_byte (b : byte) : Z := Z.of_N (Byte.to_N b).

(** *** Hexadecimal text *)

Definition hex_digit (n : Z) : ascii :=
  nth (Z.to_nat n)
      ["0"; "1"; "2"; "3"; "4"; "5"; "6"; "7";
       "8"; "9"; "a"; "b"; "c"; "d"; "e"; "f"]%char "0"%char.

(** [b.hex()] on bytes: two lowercase digits per byte. *)
Fixpoint bytes_hex (b : bytes) : string :=
  match b with
  | [] => EmptyString
  | x :: rest =>
      String (hex_digit (Z_of_byte x / 16))
        (String (hex_digit (Z_of_byte x mod 16)) (bytes_hex rest))
  end.

(** The [hexbytes] library the program runs with; the repository pins no
    version, and [HexBytes.hex()] differs between the two. *)
Inductive hexbytes_version : Type :=
| Before_1_0
| From_1_0.

(** [HexBytes.hex()], the method the code calls on a transaction hash and on a
    topic. Before hexbytes 1.0 it returns the digits behind a ["0x"] prefix;
    from 1.0 on it returns the digits alone, as [bytes.hex()] does. The code's
    [[2:]] removes two characters in either case. *)
Definition HexBytes_hex (hexbytes : hexbytes_version) (b : bytes) : string :=
  match hexbytes with
  | Before_1_0 => String "0" (String "x" (bytes_hex b))
  | From_1_0 => bytes_hex b
  end.

Definition hex_value (c : ascii) : option Z :=
  let n := Z.of_N (N_of_ascii c) in
  if (48 <=? n) && (n <=? 57) then Some (n - 48)
  else if (97 <=? n) && (n <=? 102) then Some (n - 87)
  else if (65 <=? n) && (n <=? 70) then Some (n - 55)
  else None.

(** ASCII whitespace: space, tab, line feed, vertical tab, form feed, carriage
    return. *)
Definition is_space (c : ascii) : bool :=
  let n := Z.of_N (N_of_ascii c) in
  (n =? 32) || ((9 <=? n) && (n <=? 13)).

(** [bytes.fromhex(s)]: two hexadecimal digits per byte, in either case, with
    ASCII whitespace allowed between bytes; anything else raises
    [ValueError]. *)
Fixpoint bytes_fromhex (s : string) : result bytes :=
  match s with
  | EmptyString => Ok []
  | String c rest =>
      if is_space c then bytes_fromhex rest
      else match hex_value c, rest with
           | Some hi, String d rest' =>
               match hex_value d with
               | Some lo =>
                   t <- bytes_fromhex rest' ;;
                   Ok (byte_of_Z (16 * hi + lo) :: t)
               | None => Raise ValueError
               end
           | _, _ => Raise ValueError
           end
  end.

(** *** Integers as bytes *)

(** The [length] low-order base-256 digits of [n], most significant first. *)
Fixpoint big_endian (length : nat) (n : Z) : bytes :=
  match length with
  | O => []
  | S k => big_endian k (n / 256) ++ [byte_of_Z (n mod 256)]
  end.

(** [n.to_bytes(length, "big")]: [OverflowError] for a negative [n] and for an
    [n] that needs more than [length] bytes. *)
Definition int_to_bytes (n : Z) (length : nat) : result bytes :=
  if n <? 0 then Raise OverflowError
  else if 256 ^ Z.of_nat length <=? n then Raise OverflowError
  else Ok (big_endian length n).

(** ** The Merkle engine *)

(** [b.rjust(32, b"\x00")]: zero bytes are added on the left up to a length of
    32; a longer value is returned as it is. *)
Definition pad32 (b : bytes) : bytes :=
  repeat x00 (32 - length b) ++ b.

(** A raw event record as [build_event_leaf] reads it: [log["transactionHash"]]
    and the elements of [log["topics"]] are [HexBytes] values, [log["logIndex"]]
    an [int], [log["data"]] a string, which the code slices with [[2:]] and
    hands to [bytes.fromhex]. *)
Record log_entry : Type := {
  transactionHash : bytes;
  logIndex : Z;
  topics : list bytes;
  data : string
}.

Section Engine.

(** [Web3.keccak], the hash of the pipeline: a function from byte strings to
    byte strings, supplied by a library. *)
Variable keccak : bytes -> bytes.

Definition keccak_pair (l r : bytes) : bytes := keccak (l ++ r).

(** The operands of the passes of [for i in range(0, len(level), 2)], in
    order: [(level[i], level[i+1])], or [(level[i], level[i])] when [i + 1] is
    past the end. *)
Fixpoint pair_up (level : list bytes) : list (bytes * bytes) :=
  match level with
  | [] => []
  | [l] => [(l, l)]
  | l :: r :: rest => (l, r) :: pair_up rest
  end.

(** [nxt] when the inner loop ends. *)
Definition next_level (level : list bytes) : list bytes :=
  map (fun p => keccak_pair (fst p) (snd p)) (pair_up level).

Lemma length_pair_up (level : list bytes) :
  (length (pair_up level) = Nat.div2 (S (length level)))%nat.
Proof.
  induction level as [level IH] using (well_founded_induction
    (Wf_nat.well_founded_ltof _ (@length bytes))).
  destruct level as [|l [|r rest]]; try reflexivity.
  cbn [pair_up length]. rewrite IH by (unfold Wf_nat.ltof; cbn; lia).
  reflexivity.
Qed.

Lemma length_next_level (level : list bytes) :
  (length (next_level level) = Nat.div2 (S (length level)))%nat.
Proof. unfold next_level. rewrite length_map. apply length_pair_up. Qed.

Lemma div2_S_lt (n : nat) : (2 <= n -> Nat.div2 (S n) < n)%nat.
Proof.
  intros H. rewrite Nat.div2_div.
  pose proof (Nat.div_mod_eq (S n) 2) as E.
  pose proof (Nat.mod_upper_bound (S n) 2). lia.
Qed.

Lemma next_level_shrinks (l r : bytes) (rest : list bytes) :
  (length (next_level (l :: r :: rest)) < length (l :: r :: rest))%nat.
Proof. rewrite length_next_level. apply div2_S_lt. cbn [length]. lia. Qed.

(** The [while len(level) > 1] loop, with [tree] the levels appended so far.
    It ends because each pass leaves a shorter level. *)
Equations? build_loop (level : list bytes) (tree : list (list bytes))
  : list (list bytes) by wf (length level) lt :=
  build_loop [] tree := tree;
  build_loop [_] tree := tree;
  build_loop (l :: r :: rest) tree :=
    build_loop (next_level (l :: r :: rest))
               (tree ++ [next_level (l :: r :: rest)]).
Proof.
  exact (next_level_shrinks l r rest).
Qed.

Definition build_merkle_tree (leaves : list bytes) : result (list (list bytes)) :=
  match leaves with
  | [] => Raise ValueError
  | _ =>
      let level := map pad32 leaves in
      Ok (build_loop level [level])
  end.

(** [tree[-1][0]]. *)
Definition merkle_root (tree : list (list bytes)) : result bytes :=
  last_level <- py_index tree (-1) ;;
  py_index last_level 0.

(** The body of [for level in tree[:-1]], threading [idx] and [proof]. *)
Fixpoint proof_loop (levels : list (list bytes)) (idx : Z)
    (proof : list (bytes * string)) : result (list (bytes * string)) :=
  match levels with
  | [] => Ok proof
  | level :: rest =>
      let sib_idx := Z.lxor idx 1 in
      sibling <- (if sib_idx <? len level
                  then py_index level sib_idx
                  else py_index level idx) ;;
      let pos := if idx mod 2 =? 0 then "right"%string else "left"%string in
      proof_loop rest (idx / 2) (proof ++ [(sibling, pos)])
  end.

Definition merkle_proof (tree : list (list bytes)) (index : Z)
  : result (list (bytes * string)) :=
  proof_loop (slice_init tree) index [].

(** The body of [for sib, pos in proof], threading [cur]. *)
Fixpoint verify_loop (cur : bytes) (proof : list (bytes * string)) : bytes :=
  match proof with
  | [] => cur
  | (sib, pos) :: rest =>
      let sib := pad32 sib in
      verify_loop (if String.eqb pos "right"
                   then keccak_pair cur sib
                   else keccak_pair sib cur) rest
  end.

Definition verify_proof (leaf : bytes) (proof : list (bytes * string))
    (root : bytes) : bool :=
  bytes_eqb (verify_loop (pad32 leaf) proof) root.

(** ** The leaf encoder *)

(** The installed [hexbytes], whose [hex] method the encoder calls. *)
Variable hexbytes : hexbytes_version.

(** The statements run in the order of the source, so the first failing one
    decides the exception: [log["topics"][0]], then [bytes.fromhex] on the
    data, then [to_bytes]. *)
Definition build_event_leaf (log : log_entry) : result bytes :=
  txh <- bytes_fromhex (str_from2 (HexBytes_hex hexbytes (transactionHash log))) ;;
  let log_index := logIndex log in
  t0 <- py_index (topics log) 0 ;;
  topic0 <- bytes_fromhex (str_from2 (HexBytes_hex hexbytes t0)) ;;
  raw <- bytes_fromhex (str_from2 (data log)) ;;
  let data_hash := keccak raw in
  index_bytes <- int_to_bytes log_index 8 ;;
  let payload := txh ++ index_bytes ++ topic0 ++ data_hash in
  Ok (keccak payload).

(** ** Notions the properties are stated with *)

(** [tower level t]: [t] starts at [level], each further level is the
    [next_level] of the one before, and [t] ends at the first level of at most
    one node. *)
Inductive tower : list bytes -> list (list bytes) -> Prop :=
| tower_top (level : list bytes) :
    (length level <= 1)%nat -> tower level [level]
| tower_step (level : list bytes) (t : list (list bytes)) :
    (2 <= length level)%nat ->
    tower (next_level level) t ->
    tower level (level :: t).

(** The index [merkle_proof] reads the sibling from, for a node at index [k]
    of a level of [n] nodes. *)
Definition sibling_index (n k : nat) : nat :=
  if Nat.even k then (if (S k <? n)%nat then S k else k) else (k - 1)%nat.

(** A step of [q] stands for the step of [p] at the same place: the sibling is
    the same or its [pad32] form, and the position is the same or, for a
    position other than ["right"], the string ["left"]. *)
Definition step_alike (a b : bytes * string) : Prop :=
  (fst b = fst a \/ fst b = pad32 (fst a))
  /\ (snd b = snd a \/ (snd a <> "right"%string /\ snd b = "left"%string)).

(** What [bytes.fromhex(h.hex()[2:])] is for a [HexBytes] value [h]: [h]
    itself when [hex] gives the prefix, [h] without its first byte when not. *)
Definition read_back (b : bytes) : bytes :=
  match hexbytes with
  | Before_1_0 => b
  | From_1_0 => tl b
  end.

(** The inputs one pairing pass hashes, and all those hashed to build a
    tree: one pass per level but the last. *)
Definition level_hash_inputs (level : list bytes) : list bytes :=
  map (fun p => fst p ++ snd p) (pair_up level).

Definition hash_inputs (tree : list (list bytes)) : list bytes :=
  flat_map level_hash_inputs (slice_init tree).

(** Two different inputs with the same hash, one out of each list. *)
Definition collision_between (xs ys : list bytes) : Prop :=
  exists a b : bytes, In a xs /\ In b ys /\ a <> b /\ keccak a = keccak b.

End Engine.

(** ** Keccak-256

    The function [Web3.keccak] computes, written out from the Keccak
    definition (rate 1088, capacity 512, padding byte [0x01]); the library is
    not part of the repository. The properties below hold for any hash whose
    values are 32 bytes long; this one instantiates them on concrete
    inputs. *)
Module Keccak256.

Definition mask64 : Z := 2 ^ 64 - 1.

Definition rotl64 (x : Z) (n : Z) : Z :=
  Z.land (Z.lor (Z.shiftl x n) (Z.shiftr x (64 - n))) mask64.

Definition round_constants : list Z :=
  [0x0000000000000001; 0x0000000000008082; 0x800000000000808A;
   0x8000000080008000; 0x000000000000808B; 0x0000000080000001;
   0x8000000080008081; 0x8000000000008009; 0x000000000000008A;
   0x0000000000000088; 0x0000000080008009; 0x000000008000000A;
   0x000000008000808B; 0x800000000000008B; 0x8000000000008089;
   0x8000000000008003; 0x8000000000008002; 0x8000000000000080;
   0x000000000000800A; 0x800000008000000A; 0x8000000080008081;
   0x8000000000008080; 0x0000000080000001; 0x8000000080008008].

Definition rotation_offsets : list Z :=
  [ 0;  1; 62; 28; 27;
   36; 44;  6; 55; 20;
    3; 10; 43; 25; 39;
   41; 45; 15; 21;  8;
   18;  2; 61; 56; 14].

(** The state is 25 lanes of 64 bits; lane [(x, y)] is at index [x + 5 * y]. *)
Definition lane (a : list Z) (i : nat) : Z := nth i a 0.

Definition theta (a : list Z) : list Z :=
  let c x := Z.lxor (lane a x) (Z.lxor (lane a (x + 5)) (Z.lxor (lane a (x + 10))
               (Z.lxor (lane a (x + 15)) (lane a (x + 20))))) in
  let cs := map c (seq 0 5) in
  let d x := Z.lxor (lane cs ((x + 4) mod 5)) (rotl64 (lane cs ((x + 1) mod 5)) 1) in
  let ds := map d (seq 0 5) in
  map (fun i => Z.lxor (lane a i) (lane ds (i mod 5))) (seq 0 25).

Definition rho_pi (a : list Z) : list Z :=
  map (fun j => let x := (j mod 5)%nat in let y := (j / 5)%nat in
                let src := (((x + 3 * y) mod 5) + 5 * x)%nat in
                rotl64 (lane a src) (lane rotation_offsets src)) (seq 0 25).

Definition chi (b : list Z) : list Z :=
  map (fun j => let x := (j mod 5)%nat in let y := (j / 5)%nat in
                Z.lxor (lane b j)
                  (Z.land (Z.lxor (lane b ((x + 1) mod 5 + 5 * y)) mask64)
                          (lane b ((x + 2) mod 5 + 5 * y)))) (seq 0 25).

Definition iota (rc : Z) (a : list Z) : list Z :=
  match a with
  | [] => []
  | a0 :: rest => Z.lxor a0 rc :: rest
  end.

Definition round (a : list Z) (rc : Z) : list Z :=
  iota rc (chi (rho_pi (theta a))).

Definition keccak_f (a : list Z) : list Z := fold_left round round_constants a.

Definition rate : nat := 136.

Definition pad (m : bytes) : bytes :=
  let q := (rate - length m mod rate)%nat in
  match q with
  | 1%nat => m ++ [x81]
  | _ => m ++ [x01] ++ repeat x00 (q - 2) ++ [x80]
  end.

Fixpoint le_lane (bs : bytes) : Z :=
  match bs with
  | [] => 0
  | b :: rest => Z_of_byte b + 256 * le_lane rest
  end.

Definition xor_block (a : list Z) (block : bytes) : list Z :=
  map (fun i => if (i <? 17)%nat
                then Z.lxor (lane a i) (le_lane (firstn 8 (skipn (8 * i) block)))
                else lane a i) (seq 0 25).

Fixpoint absorb (blocks : nat) (m : bytes) (a : list Z) : list Z :=
  match blocks with
  | O => a
  | S k => absorb k (skipn rate m) (keccak_f (xor_block a (firstn rate m)))
  end.

Definition lane_bytes (z : Z) : bytes :=
  [byte_of_Z z; byte_of_Z (Z.shiftr z 8); byte_of_Z (Z.shiftr z 16);
   byte_of_Z (Z.shiftr z 24); byte_of_Z (Z.shiftr z 32); byte_of_Z (Z.shiftr z 40);
   byte_of_Z (Z.shiftr z 48); byte_of_Z (Z.shiftr z 56)].

Definition keccak256 (m : bytes) : bytes :=
  let p := pad m in
  let a := absorb (length p / rate) p (repeat 0 25) in
  lane_bytes (lane a 0) ++ lane_bytes (lane a 1) ++
  lane_bytes (lane a 2) ++ lane_bytes (lane a 3).

End Keccak256.

Example keccak256_empty :
  bytes_hex (Keccak256.keccak256 []) =
  "c5d2460186f7233c927e7db2dcc703c0e500b653ca82273b7bfad8045d85a470"%string.
Proof. vm_compute. reflexivity. Qed.

(** [TRANSFER_TOPIC0] of the source. *)
Example keccak256_transfer_topic :
  bytes_hex (Keccak256.keccak256
    (list_byte_of_string "Transfer(address,address,uint256)")) =
  "ddf252ad1be2c89b69c2b068fc378daa952ba7f163c4a11628f55a4df523b3ef"%string.
Proof. vm_compute. reflexivity. Qed.

Lemma keccak256_length (m : bytes) : length (Keccak256.keccak256 m) = 32%nat.
Proof. unfold Keccak256.keccak256. cbv zeta. rewrite !length_app. reflexivity. Qed.

(** ** The rest of the program *)

(** [to_hex(b)], and the helper [h] inside [main]: ["0x" + b.hex()]. *)
Definition to_hex (b : bytes) : string :=
  String "0" (String "x" (bytes_hex b)).

(** [str(n)] on an [int], as an f-string formats it: the decimal digits, behind
    a ["-"] for a negative number. *)
Definition str_int (n : Z) : string :=
  NilEmpty.string_of_int (Z.to_int n).

(** The module-level dict [NETWORKS], in the order of the source. *)
Definition NETWORKS : list (Z * string) :=
  [(1, "Ethereum Mainnet"); (11155111, "Sepolia Testnet"); (10, "Optimism");
   (137, "Polygon"); (42161, "Arbitrum One")]%string.

(** [d.get(key, default)] on a dict kept as its list of items. *)
Fixpoint dict_get (d : list (Z * string)) (key : Z) (default : string) : string :=
  match d with
  | [] => default
  | (k, v) :: rest => if k =? key then v else dict_get rest key default
  end.

Definition network_name (chain_id : Z) : string :=
  dict_get NETWORKS chain_id
    ("Unknown (chain ID " ++ str_int chain_id ++ ")")%string.

(** How [main] ends once the logs are fetched: [sys.exit(status)], or the
    values it goes on to print. *)
Inductive outcome : Type :=
| Exit (status : Z)
| Report (root : bytes) (idx : Z) (proof : list (bytes * string)) (ok : bool).

(** A list comprehension [[f(x) for x in l]]: the first exception ends it. *)
Fixpoint map_result {A B : Type} (f : A -> result B) (l : list A)
  : result (list B) :=
  match l with
  | [] => Ok []
  | x :: rest =>
      y <- f x ;;
      ys <- map_result f rest ;;
      Ok (y :: ys)
  end.

Section Program.

Variable keccak : bytes -> bytes.
Variable hexbytes : hexbytes_version.

(** [main] from the test [if not logs] on (lines 131 to 148), as a function of
    the fetched [logs] and of [args.index]; what it prints and the timing are
    left out. An exception no statement catches is the [Raise] branch. *)
Definition main_after_fetch (logs : list log_entry) (index : Z) : result outcome :=
  match logs with
  | [] => Ok (Exit 0)
  | _ =>
      leaves <- map_result (build_event_leaf keccak hexbytes) logs ;;
      tree <- build_merkle_tree keccak leaves ;;
      root <- merkle_root tree ;;
      let idx := index in
      if (idx <? 0) || (idx >=? len leaves) then Ok (Exit 1)
      else
        leaf <- py_index leaves idx ;;
        proof <- merkle_proof tree idx ;;
        let ok := verify_proof keccak leaf proof root in
        Ok (Report root idx proof ok)
  end.

(** Two different inputs with the same hash. *)
Definition collision : Prop :=
  exists a b : bytes, a <> b /\ keccak a = keccak b.

End Program.

(** ** Sample inputs *)

Definition leaf_a : bytes := repeat x0a 32.
Definition leaf_b : bytes := repeat x0b 32.
Definition leaf_c : bytes := repeat x0c 32.

Definition sample_leaves : list bytes := [leaf_a; leaf_b; leaf_c].

Definition hash_ab : bytes :=
  Eval vm_compute in Keccak256.keccak256 (leaf_a ++ leaf_b).
Definition hash_cc : bytes :=
  Eval vm_compute in Keccak256.keccak256 (leaf_c ++ leaf_c).
Definition sample_root : bytes :=
  Eval vm_compute in Keccak256.keccak256 (hash_ab ++ hash_cc).

Definition sample_tree : list (list bytes) :=
  [sample_leaves; [hash_ab; hash_cc]; [sample_root]].

(** A Transfer event: first topic [TRANSFER_TOPIC0], data the 32 bytes of the
    amount 1. *)
Definition sample_log : log_entry := {|
  transactionHash := repeat xab 32;
  logIndex := 5;
  topics := [Keccak256.keccak256
               (list_byte_of_string "Transfer(address,address,uint256)");
             pad32 [x11]; pad32 [x22]];
  data := to_hex (pad32 [x01])
|}.

(** A record whose transaction hash is 1 byte long and whose first topic is 2
    bytes long. *)
Definition short_hash_log : log_entry := {|
  transactionHash := [x01];
  logIndex := 7;
  topics := [[x02; x03]];
  data := "0x"
|}.

Definition long_leaf : bytes := repeat x07 40.

(** * Properties *)

(** ** Python values *)

Lemma bytes_eqb_eq (a b : bytes) : bytes_eqb a b = true <-> a = b.
Proof.
  revert b. induction a as [|x a IH]; intros [|y b]; cbn; try easy.
  rewrite andb_true_iff, IH. split.
  - intros [E ->]. apply Byte.byte_dec_bl in E. now subst.
  - intros E. inversion E. split; [now apply Byte.byte_dec_lb | reflexivity].
Qed.

Lemma len_nonneg {A : Type} (l : list A) : 0 <= len l.
Proof. unfold len. lia. Qed.

Lemma py_index_nat {A : Type} (l : list A) (k : nat) (a : A) :
  nth_error l k = Some a -> py_index l (Z.of_nat k) = Ok a.
Proof.
  intros E. assert (k < length l)%nat as B by (apply nth_error_Some; congruence).
  unfold py_index, len. cbv zeta.
  destruct (Z.ltb_spec (Z.of_nat k) 0); [lia|].
  destruct (Z.ltb_spec (Z.of_nat k) 0); [lia|].
  destruct (Z.leb_spec (Z.of_nat (length l)) (Z.of_nat k)); [lia|].
  cbn. rewrite Nat2Z.id, E. reflexivity.
Qed.

Lemma py_index_in_range {A : Type} (l : list A) (i : Z) :
  0 <= i < len l -> exists a, nth_error l (Z.to_nat i) = Some a /\ py_index l i = Ok a.
Proof.
  unfold len. intros B.
  destruct (nth_error l (Z.to_nat i)) as [a|] eqn:E.
  - exists a. split; [reflexivity|].
    rewrite <- (Z2Nat.id i) by lia. now apply py_index_nat.
  - apply nth_error_None in E. lia.
Qed.

Lemma py_index_past_end {A : Type} (l : list A) (i : Z) :
  len l <= i -> py_index l i = Raise IndexError.
Proof.
  intros B. pose proof (len_nonneg l). unfold py_index. cbv zeta.
  destruct (Z.ltb_spec i 0); [lia|].
  destruct (Z.leb_spec (len l) i); [|lia].
  rewrite orb_true_r. reflexivity.
Qed.

Lemma py_index_from_end {A : Type} (l : list A) (i : Z) :
  - len l <= i < 0 -> py_index l i = py_index l (i + len l).
Proof.
  intros B. unfold py_index. cbv zeta.
  assert ((i <? 0) = true) as E1 by (apply Z.ltb_lt; lia).
  assert ((i + len l <? 0) = false) as E2 by (apply Z.ltb_ge; lia).
  rewrite E1. cbv iota. rewrite E2. cbv iota. rewrite E2. reflexivity.
Qed.

Lemma slice_init_cons {A : Type} (x y : A) (l : list A) :
  slice_init (x :: y :: l) = x :: slice_init (y :: l).
Proof. unfold slice_init. cbn [length]. rewrite !Nat.sub_1_r. reflexivity. Qed.

Lemma length_slice_init {A : Type} (l : list A) :
  length (slice_init l) = (length l - 1)%nat.
Proof. unfold slice_init. rewrite length_firstn. lia. Qed.

(** [x ^ 1] flips the low bit. *)
Lemma lxor_1 (i : Z) : Z.lxor i 1 = if Z.even i then i + 1 else i - 1.
Proof.
  destruct (Z.even i) eqn:E.
  - symmetry. apply Z.add_nocarry_lxor. apply Z.bits_inj'. intros n Hn.
    rewrite Z.land_spec, Z.bits_0. destruct (Z.eq_dec n 0) as [->|Hne].
    + rewrite Z.bit0_odd, <- Z.negb_even, E. reflexivity.
    + replace (Z.testbit 1 n) with false; [apply andb_false_r|].
      symmetry. apply (Z.bits_above_log2 1 n); cbn; lia.
  - assert (Z.land (i - 1) 1 = 0) as N.
    { apply Z.bits_inj'. intros n Hn.
      rewrite Z.land_spec, Z.bits_0. destruct (Z.eq_dec n 0) as [->|Hne].
      - rewrite Z.bit0_odd, Z.odd_sub, <- Z.negb_even, E. reflexivity.
      - replace (Z.testbit 1 n) with false; [apply andb_false_r|].
        symmetry. apply (Z.bits_above_log2 1 n); cbn; lia. }
    apply Z.add_nocarry_lxor in N.
    replace i with (i - 1 + 1) at 1 by lia.
    rewrite N, Z.lxor_assoc, Z.lxor_nilpotent, Z.lxor_0_r. reflexivity.
Qed.

(** ** [pad32] *)

Lemma pad32_fixed (b : bytes) : (32 <= length b)%nat -> pad32 b = b.
Proof.
  intros H. unfold pad32.
  replace (32 - length b)%nat with 0%nat by lia. reflexivity.
Qed.

Lemma pad32_length (b : bytes) : (32 <= length (pad32 b))%nat.
Proof. unfold pad32. rewrite length_app, repeat_length. lia. Qed.

Lemma pad32_idempotent (b : bytes) : pad32 (pad32 b) = pad32 b.
Proof. apply pad32_fixed, pad32_length. Qed.

Lemma map_pad32_fixed (L : list bytes) :
  Forall (fun x => (32 <= length x)%nat) L -> map pad32 L = L.
Proof.
  induction 1 as [|x L Hx _ IH]; cbn [map]; [reflexivity|].
  rewrite IH, pad32_fixed by assumption. reflexivity.
Qed.

(** ** The tree [build_merkle_tree] returns *)

Section EngineProperties.

Variable keccak : bytes -> bytes.

Lemma build_loop_acc (level : list bytes) (tree : list (list bytes)) :
  build_loop keccak level tree = tree ++ build_loop keccak level [].
Proof.
  revert tree.
  induction level as [level IH] using (well_founded_induction
    (Wf_nat.well_founded_ltof _ (@length bytes))).
  intros tree. destruct level as [|l [|r rest]]; simp build_loop.
  - now rewrite app_nil_r.
  - now rewrite app_nil_r.
  - pose proof (next_level_shrinks keccak l r rest) as Hlt.
    rewrite (IH _ Hlt (tree ++ _)), (IH _ Hlt ([] ++ _)).
    rewrite <- app_assoc. reflexivity.
Qed.

Lemma build_loop_tower (level : list bytes) :
  tower keccak level (level :: build_loop keccak level []).
Proof.
  induction level as [level IH] using (well_founded_induction
    (Wf_nat.well_founded_ltof _ (@length bytes))).
  destruct level as [|l [|r rest]]; simp build_loop.
  - apply tower_top. cbn. lia.
  - apply tower_top. cbn. lia.
  - rewrite build_loop_acc. apply tower_step; [cbn; lia|].
    apply IH. apply next_level_shrinks.
Qed.

Lemma build_merkle_tree_tower (leaves : list bytes) :
  leaves <> [] ->
  build_merkle_tree keccak leaves
    = Ok (map pad32 leaves :: build_loop keccak (map pad32 leaves) [])
  /\ tower keccak (map pad32 leaves)
           (map pad32 leaves :: build_loop keccak (map pad32 leaves) []).
Proof.
  intros Hne. split; [|apply build_loop_tower].
  destruct leaves as [|x leaves]; [congruence|].
  unfold build_merkle_tree. cbv zeta. rewrite build_loop_acc. reflexivity.
Qed.

Lemma tower_head (level : list bytes) (t : list (list bytes)) :
  tower keccak level t -> exists rest, t = level :: rest.
Proof. intros [lv H|lv t' H H']; eauto. Qed.

Lemma next_level_nonempty (level : list bytes) :
  level <> [] -> next_level keccak level <> [].
Proof. destruct level as [|l [|r rest]]; cbn; congruence. Qed.

Lemma div2_S_ceil (n : nat) : Nat.div2 (S n) = ((n + 1) / 2)%nat.
Proof. rewrite Nat.div2_div, Nat.add_1_r. reflexivity. Qed.

Lemma nth_error_last {A : Type} (l : list A) (d : A) :
  l <> [] -> nth_error l (length l - 1) = Some (last l d).
Proof.
  induction l as [|x [|y l] IH]; intros Hne; [congruence|reflexivity|].
  replace (length (x :: y :: l) - 1)%nat with (S (length (y :: l) - 1))
    by (cbn [length]; lia).
  cbn [nth_error last]. rewrite IH by congruence. reflexivity.
Qed.

(** [l[-1]] is the last element of a non-empty list. *)
Lemma py_index_last {A : Type} (l : list A) (d : A) :
  l <> [] -> py_index l (-1) = Ok (last l d).
Proof.
  intros Hne. assert (1 <= length l)%nat by (destruct l; cbn; [congruence|lia]).
  rewrite py_index_from_end by (unfold len; lia).
  replace (-1 + len l) with (Z.of_nat (length l - 1)) by (unfold len; lia).
  apply py_index_nat, nth_error_last, Hne.
Qed.

Lemma merkle_root_last (t : list (list bytes)) (root : bytes) :
  last t [] = [root] -> merkle_root t = Ok root.
Proof.
  intros E. assert (t <> []) as Hne by (intros ->; discriminate).
  unfold merkle_root. rewrite (py_index_last [] Hne), E. reflexivity.
Qed.

Lemma tower_shape (level : list bytes) (t : list (list bytes)) :
  tower keccak level t -> level <> [] ->
  (forall k prev cur, nth_error t k = Some prev -> nth_error t (S k) = Some cur ->
                      length cur = ((length prev + 1) / 2)%nat)
  /\ Forall (fun lv => lv <> []) t
  /\ exists root, last t [] = [root].
Proof.
  induction 1 as [level Hlen|level t Hlen Ht IH]; intros Hne.
  - split; [|split].
    + intros [|k] prev cur; cbn; [discriminate|destruct k; discriminate].
    + constructor; [assumption|constructor].
    + destruct level as [|root [|y rest]]; [congruence| |cbn in Hlen; lia].
      exists root. reflexivity.
  - destruct (IH (next_level_nonempty Hne)) as (Hstep & Hall & root & Hlast).
    destruct (tower_head Ht) as [rest ->].
    split; [|split].
    + intros [|k] prev cur Hp Hc.
      * cbn in Hp, Hc. inversion Hp; inversion Hc; subst.
        rewrite length_next_level. apply div2_S_ceil.
      * apply (Hstep k); assumption.
    + constructor; assumption.
    + exists root. exact Hlast.
Qed.

(** C4. [build_merkle_tree] applied to the empty list raises [ValueError] (the
    source's "No leaves to build a tree"): the call returns no tree, hence no
    root and no fallback value. *)
Theorem build_merkle_tree_empty :
  build_merkle_tree keccak [] = Raise ValueError
  /\ forall tree, build_merkle_tree keccak [] <> Ok tree.
Proof. split; [reflexivity|]. intros tree. discriminate. Qed.

(** C8. For a non-empty leaf list [build_merkle_tree] returns a tree whose
    level 0 is the padded leaves, in which every level after level 0 has
    [ceil(len(previous level) / 2)] nodes, no level is empty, and the last
    level is the single node [merkle_root] returns. *)
Theorem build_merkle_tree_shape (leaves : list bytes) :
  leaves <> [] ->
  exists tree root,
    build_merkle_tree keccak leaves = Ok tree
    /\ nth_error tree 0 = Some (map pad32 leaves)
    /\ (forall k prev cur,
          nth_error tree k = Some prev -> nth_error tree (S k) = Some cur ->
          length cur = ((length prev + 1) / 2)%nat)
    /\ Forall (fun level => level <> []) tree
    /\ last tree [] = [root]
    /\ merkle_root tree = Ok root.
Proof.
  intros Hne. destruct (build_merkle_tree_tower Hne) as [Hb Ht].
  assert (map pad32 leaves <> []) as Hne'
    by (destruct leaves; cbn; congruence).
  destruct (tower_shape Ht Hne') as (Hstep & Hall & root & Hlast).
  eexists. exists root. split; [exact Hb|].
  split; [reflexivity|]. split; [exact Hstep|]. split; [exact Hall|].
  split; [exact Hlast|]. apply merkle_root_last, Hlast.
Qed.

(** ** Proofs derived from the tree *)

Lemma list_pair_ind {A : Type} (P : list A -> Prop) :
  P [] -> (forall x, P [x]) -> (forall x y l, P l -> P (x :: y :: l)) ->
  forall l, P l.
Proof.
  intros H0 H1 H2.
  fix IH 1. intros [|x [|y l]]; [exact H0|exact (H1 x)|exact (H2 x y l (IH l))].
Qed.

(** The node at index [k] and its sibling are the operands of pass [k / 2] of
    the pairing loop, the node on the left when [k] is even. *)
Lemma pair_up_nth (level : list bytes) (k : nat) (x : bytes) :
  nth_error level k = Some x ->
  exists sib,
    nth_error level (sibling_index (length level) k) = Some sib
    /\ nth_error (pair_up level) (k / 2)
       = Some (if Nat.even k then (x, sib) else (sib, x)).
Proof.
  revert k. induction level as [|a|a b rest IH] using list_pair_ind; intros k E.
  - destruct k; discriminate.
  - destruct k as [|k]; [|destruct k; discriminate].
    inversion E; subst. exists x. split; reflexivity.
  - destruct k as [|[|k]].
    + inversion E; subst. exists b. split; reflexivity.
    + inversion E; subst. exists a. split; reflexivity.
    + cbn [nth_error] in E. destruct (IH k E) as (sib & Hs & Hp).
      exists sib. split.
      * unfold sibling_index in *. cbn [length].
        change (Nat.even (S (S k))) with (Nat.even k).
        change (S (S (S k)) <? S (S (length rest)))%nat
          with (S k <? length rest)%nat.
        destruct (Nat.even k) eqn:Ev.
        -- destruct (S k <? length rest)%nat; exact Hs.
        -- destruct k as [|k]; [discriminate|].
           cbn [Nat.sub] in Hs |- *. rewrite Nat.sub_0_r in *. exact Hs.
      * change (S (S k)) with (1 * 2 + k)%nat at 1.
        rewrite Nat.div_add_l by lia.
        change (Nat.even (S (S k))) with (Nat.even k). exact Hp.
Qed.

(** The pairing loop read by index, as the source writes it: pass [j] appends
    [keccak_pair(level[i], level[i + 1] if i + 1 < len(level) else level[i])]
    for [i = 2 * j]. *)
Lemma next_level_index (level : list bytes) (j : nat) (L : bytes) :
  py_index level (Z.of_nat (2 * j)) = Ok L ->
  exists R,
    (if Z.of_nat (2 * j) + 1 <? len level
     then py_index level (Z.of_nat (2 * j) + 1)
     else py_index level (Z.of_nat (2 * j))) = Ok R
    /\ py_index (next_level keccak level) (Z.of_nat j) = Ok (keccak_pair keccak L R).
Proof.
  intros HL.
  assert (2 * j < length level)%nat as B.
  { destruct (Nat.lt_ge_cases (2 * j) (length level)) as [Hlt|Hge]; [exact Hlt|].
    rewrite py_index_past_end in HL by (unfold len; lia). discriminate. }
  destruct (nth_error level (2 * j)) as [x|] eqn:E;
    [|apply nth_error_None in E; lia].
  rewrite (py_index_nat _ _ E) in HL. injection HL as ->.
  destruct (pair_up_nth _ _ E) as (R & HR & Hp).
  assert (Nat.even (2 * j) = true) as Ev
    by (rewrite Nat.even_mul; reflexivity).
  unfold sibling_index in HR. rewrite Ev in HR, Hp.
  replace (2 * j / 2)%nat with j in Hp
    by (rewrite Nat.mul_comm, Nat.div_mul by lia; reflexivity).
  exists R. split.
  - unfold len. destruct (Nat.ltb_spec (S (2 * j)) (length level)).
    + destruct (Z.ltb_spec (Z.of_nat (2 * j) + 1) (Z.of_nat (length level))); [|lia].
      replace (Z.of_nat (2 * j) + 1) with (Z.of_nat (S (2 * j))) by lia.
      now apply py_index_nat.
    + destruct (Z.ltb_spec (Z.of_nat (2 * j) + 1) (Z.of_nat (length level))); [lia|].
      now apply py_index_nat.
  - apply py_index_nat. unfold next_level. rewrite nth_error_map, Hp. reflexivity.
Qed.

(** One pass of [merkle_proof]'s loop at an index inside the level. *)
Lemma proof_step (level : list bytes) (k : nat) (x : bytes) :
  nth_error level k = Some x ->
  exists sib,
    nth_error level (sibling_index (length level) k) = Some sib
    /\ (if Z.lxor (Z.of_nat k) 1 <? len level
        then py_index level (Z.lxor (Z.of_nat k) 1)
        else py_index level (Z.of_nat k)) = Ok sib
    /\ (Z.of_nat k mod 2 =? 0) = Nat.even k
    /\ Z.of_nat k / 2 = Z.of_nat (k / 2).
Proof.
  intros E. destruct (pair_up_nth _ _ E) as (sib & Hs & _).
  assert (k < length level)%nat as B by (apply nth_error_Some; congruence).
  exists sib. split; [exact Hs|].
  assert (Z.even (Z.of_nat k) = Nat.even k) as Ev.
  { clear. induction k as [|k IH]; [reflexivity|].
    rewrite Nat2Z.inj_succ, Z.even_succ, Nat.even_succ.
    rewrite <- Z.negb_even, <- Nat.negb_even, IH. reflexivity. }
  split; [|split].
  - rewrite lxor_1, Ev. unfold sibling_index, len in *.
    destruct (Nat.even k) eqn:Ek.
    + destruct (Nat.ltb_spec (S k) (length level)).
      * destruct (Z.ltb_spec (Z.of_nat k + 1) (Z.of_nat (length level))); [|lia].
        replace (Z.of_nat k + 1) with (Z.of_nat (S k)) by lia.
        now apply py_index_nat.
      * destruct (Z.ltb_spec (Z.of_nat k + 1) (Z.of_nat (length level))); [lia|].
        now apply py_index_nat.
    + assert (1 <= k)%nat by (destruct k; [discriminate|lia]).
      destruct (Z.ltb_spec (Z.of_nat k - 1) (Z.of_nat (length level))); [|lia].
      replace (Z.of_nat k - 1) with (Z.of_nat (k - 1)) by lia.
      now apply py_index_nat.
  - rewrite <- Ev, Zmod_even. destruct (Z.even (Z.of_nat k)); reflexivity.
  - symmetry. apply (Nat2Z.inj_div k 2).
Qed.

Lemma slice_init_tower (level : list bytes) (t : list (list bytes)) :
  tower keccak (next_level keccak level) t ->
  slice_init (level :: t) = level :: slice_init t.
Proof. intros Ht. destruct (tower_head Ht) as [rest ->]. apply slice_init_cons. Qed.

Lemma merkle_root_cons (level : list bytes) (t : list (list bytes)) :
  t <> [] -> merkle_root (level :: t) = merkle_root t.
Proof.
  intros Hne. unfold merkle_root.
  rewrite (py_index_last [] Hne), (@py_index_last _ (level :: t) []) by discriminate.
  destruct t; [congruence|reflexivity].
Qed.

(** Walking up a tower from an index inside its first level: the loop of
    [merkle_proof] returns one step per level below the root, and, when the
    hash has 32-byte values and the first level holds no node shorter than 32
    bytes, folding the steps as [verify_proof] does ends at the root. *)
Lemma proof_loop_tower (level : list bytes) (t : list (list bytes)) :
  tower keccak level t ->
  forall (k : nat) (x : bytes) (acc : list (bytes * string)),
    nth_error level k = Some x ->
    exists proof,
      proof_loop (slice_init t) (Z.of_nat k) acc = Ok (acc ++ proof)
      /\ length proof = (length t - 1)%nat
      /\ ((forall b, length (keccak b) = 32%nat) ->
          Forall (fun y => (32 <= length y)%nat) level ->
          merkle_root t = Ok (verify_loop keccak x proof)).
Proof.
  induction 1 as [level Hlen|level t Hlen Ht IH]; intros k x acc E.
  - exists []. split; [|split].
    + cbn. rewrite app_nil_r. reflexivity.
    + reflexivity.
    + intros _ _. destruct level as [|y [|z rest]]; [destruct k; discriminate| |cbn in Hlen; lia].
      destruct k as [|k]; [|destruct k; discriminate].
      inversion E; subst. reflexivity.
  - destruct (proof_step _ _ E) as (sib & Hsib & Hread & Hpos & Hdiv).
    destruct (pair_up_nth _ _ E) as (sib' & Hsib' & Hpair).
    assert (sib' = sib) as -> by congruence.
    pose (pos := if Nat.even k then "right"%string else "left"%string).
    pose (up := if Nat.even k then keccak_pair keccak x sib
                else keccak_pair keccak sib x).
    assert (nth_error (next_level keccak level) (k / 2) = Some up) as Hup.
    { unfold next_level. rewrite nth_error_map, Hpair. unfold up.
      destruct (Nat.even k); reflexivity. }
    destruct (IH (k / 2)%nat up (acc ++ [(sib, pos)]) Hup) as (proof & Hloop & Hl & Hv).
    exists ((sib, pos) :: proof). split; [|split].
    + rewrite (slice_init_tower _ Ht). cbn [proof_loop]. cbv zeta.
      rewrite Hread, Hpos, Hdiv. cbn [bind]. fold pos.
      rewrite Hloop, <- app_assoc. reflexivity.
    + destruct (tower_head Ht) as [rest ->]. cbn [length] in *. lia.
    + intros Hk Hpad. rewrite merkle_root_cons
        by (destruct (tower_head Ht) as [rest ->]; discriminate).
      rewrite Hv; [|exact Hk|].
      * cbn [verify_loop]. cbv zeta.
        rewrite (@pad32_fixed sib).
        -- unfold pos, up. destruct (Nat.even k); reflexivity.
        -- apply nth_error_In in Hsib.
           rewrite Forall_forall in Hpad. apply Hpad, Hsib.
      * unfold next_level. rewrite Forall_map. apply Forall_forall.
        intros p _. unfold keccak_pair. rewrite Hk. lia.
Qed.

(** C1. Round-trip inclusion: for every leaf list and every index [i] with
    [0 <= i < len(leaves)] (so the list is not empty), the tree is built,
    [merkle_proof] returns a proof for [i], [merkle_root] returns the root,
    and [verify_proof] accepts the leaf [leaves[i]] with that proof and root.
    The hash is any function with 32-byte values. It holds for leaves of any
    length, 32-byte leaves among them, since [build_merkle_tree] and
    [verify_proof] pad alike. *)
Theorem roundtrip_inclusion (leaves : list bytes) (i : Z) :
  (forall b, length (keccak b) = 32%nat) ->
  0 <= i < len leaves ->
  exists leaf tree proof root,
    py_index leaves i = Ok leaf
    /\ build_merkle_tree keccak leaves = Ok tree
    /\ merkle_proof tree i = Ok proof
    /\ merkle_root tree = Ok root
    /\ verify_proof keccak leaf proof root = true.
Proof.
  intros Hk Hi.
  destruct (py_index_in_range leaves Hi) as (leaf & Hnth & Hleaf).
  assert (leaves <> []) as Hne by (intros ->; destruct (Z.to_nat i); discriminate).
  destruct (build_merkle_tree_tower Hne) as [Hb Ht].
  assert (nth_error (map pad32 leaves) (Z.to_nat i) = Some (pad32 leaf)) as Hx
    by (rewrite nth_error_map, Hnth; reflexivity).
  destruct (proof_loop_tower Ht _ [] Hx) as (proof & Hloop & _ & Hv).
  exists leaf. eexists. exists proof, (verify_loop keccak (pad32 leaf) proof).
  split; [exact Hleaf|]. split; [exact Hb|]. split; [|split].
  - unfold merkle_proof. rewrite <- (Z2Nat.id i) by lia. exact Hloop.
  - apply Hv; [exact Hk|]. rewrite Forall_map. apply Forall_forall.
    intros y _. apply pad32_length.
  - unfold verify_proof. apply bytes_eqb_eq. reflexivity.
Qed.

(** ** Indices outside the leaves *)

Lemma tower_init_lengths (level : list bytes) (t : list (list bytes)) :
  tower keccak level t -> Forall (fun lv => (2 <= length lv)%nat) (slice_init t).
Proof.
  induction 1 as [level Hlen|level t Hlen Ht IH]; [constructor|].
  rewrite (slice_init_tower _ Ht). constructor; assumption.
Qed.

(** With [idx = -1] every pass reads [level[-2]], records ["left"] and leaves
    [idx] at [-1]. *)
Lemma proof_loop_minus_one (levels : list (list bytes)) (acc : list (bytes * string)) :
  Forall (fun lv => (2 <= length lv)%nat) levels ->
  proof_loop levels (-1) acc
  = Ok (acc ++ map (fun lv => (nth (length lv - 2) lv [], "left"%string)) levels).
Proof.
  intros H. revert acc. induction H as [|lv levels Hlv _ IH]; intros acc.
  - cbn. rewrite app_nil_r. reflexivity.
  - cbn [proof_loop map]. cbv zeta. change (Z.lxor (-1) 1) with (-2).
    change (-1 mod 2 =? 0) with false. change (-1 / 2) with (-1).
    destruct (Z.ltb_spec (-2) (len lv)); [|pose proof (len_nonneg lv); lia].
    rewrite py_index_from_end by (unfold len; lia).
    replace (-2 + len lv) with (Z.of_nat (length lv - 2)) by (unfold len; lia).
    rewrite (@py_index_nat _ lv (length lv - 2) (nth (length lv - 2) lv []))
      by (apply nth_error_nth'; lia).
    cbn [bind]. rewrite IH, <- app_assoc. reflexivity.
Qed.

(** C3, as the code has it. [merkle_proof] makes no range check of its own.
    For the tree built from [n] leaves, [merkle_proof(tree, n)] raises
    [IndexError] when [n] is even; when [n] is odd it returns a proof of one
    step per level below the root; and [merkle_proof(tree, -1)] returns the
    proof whose steps are [(level[-2], "left")] for each level below the
    root. *)
Theorem merkle_proof_outside_leaves (leaves : list bytes) (tree : list (list bytes)) :
  build_merkle_tree keccak leaves = Ok tree ->
  (Z.even (len leaves) = true ->
   merkle_proof tree (len leaves) = Raise IndexError)
  /\ (Z.odd (len leaves) = true ->
      exists proof, merkle_proof tree (len leaves) = Ok proof
                    /\ length proof = (length tree - 1)%nat)
  /\ merkle_proof tree (-1)
     = Ok (map (fun level => (nth (length level - 2) level [], "left"%string))
               (slice_init tree)).
Proof.
  intros Hb.
  assert (leaves <> []) as Hne by (intros ->; discriminate).
  destruct (build_merkle_tree_tower Hne) as [Hb' Ht].
  rewrite Hb' in Hb. injection Hb as <-. clear Hb'.
  assert (len leaves = len (map pad32 leaves)) as Hn
    by (unfold len; rewrite length_map; reflexivity).
  assert (map pad32 leaves <> []) as Hne'
    by (destruct leaves; cbn; congruence).
  rewrite Hn. clear Hn Hne.
  remember (map pad32 leaves) as level eqn:Hl. clear Hl.
  remember (build_loop keccak level []) as rest eqn:Hr. clear Hr.
  split; [|split].
  - intros Hev.
    inversion Ht as [lv Hlen|lv t Hlen Hnext]; subst.
    + destruct level as [|x [|y tl]]; [congruence|discriminate|cbn in Hlen; lia].
    + unfold merkle_proof. rewrite (slice_init_tower _ Hnext).
      cbn [proof_loop]. cbv zeta. rewrite lxor_1, Hev.
      destruct (Z.ltb_spec (len level + 1) (len level)); [lia|].
      rewrite py_index_past_end by lia. reflexivity.
  - intros Hodd.
    inversion Ht as [lv Hlen|lv t Hlen Hnext]; subst.
    + exists []. split; reflexivity.
    + assert (Z.even (len level) = false) as Hev
        by (rewrite <- Z.negb_odd, Hodd; reflexivity).
      assert (exists m, length level = S (2 * S m)) as [m Hm].
      { unfold len in Hodd. apply Z.odd_spec in Hodd. destruct Hodd as [q Hq].
        exists (Z.to_nat q - 1)%nat. lia. }
      destruct (nth_error level (2 * S m)) as [sib|] eqn:Hsib;
        [|apply nth_error_None in Hsib; lia].
      assert (nth_error (next_level keccak level) (S m) <> None) as Hin.
      { apply nth_error_Some. rewrite length_next_level, Hm, Nat.div2_div.
        replace (S (S (2 * S m))) with ((S m + 1) * 2)%nat by lia.
        rewrite Nat.div_mul by lia. lia. }
      destruct (nth_error (next_level keccak level) (S m)) as [up|] eqn:Hup;
        [clear Hin|congruence].
      destruct (proof_loop_tower Hnext _ [(sib, "left"%string)] Hup)
        as (proof & Hloop & Hl & _).
      exists ((sib, "left"%string) :: proof). split.
      * unfold merkle_proof. rewrite (slice_init_tower _ Hnext).
        cbn [proof_loop]. cbv zeta. rewrite lxor_1, Hev.
        destruct (Z.ltb_spec (len level - 1) (len level)); [|lia].
        replace (len level - 1) with (Z.of_nat (2 * S m)) by (unfold len; lia).
        rewrite (py_index_nat _ _ Hsib). cbn [bind].
        rewrite Zmod_even, Hev. cbn [Z.eqb app].
        replace (len level / 2) with (Z.of_nat (S m)); [exact Hloop|].
        unfold len. rewrite Hm.
        replace (Z.of_nat (S (2 * S m))) with (1 + Z.of_nat (S m) * 2) by lia.
        rewrite Z.div_add by lia. reflexivity.
      * destruct (tower_head Hnext) as [tl ->]. cbn [length] in *. lia.
  - unfold merkle_proof. apply (@proof_loop_minus_one _ []).
    apply (tower_init_lengths Ht).
Qed.

(** ** Small trees *)

(** C7. For a 32-byte [A], [build_merkle_tree([A])] is the one-level tree
    [[[A]]], its root is [A] itself with no hash applied, [merkle_proof] at
    index 0 is the empty list, and [verify_proof(A, [], A)] is [True]. *)
Theorem single_leaf_tree (A : bytes) :
  length A = 32%nat ->
  build_merkle_tree keccak [A] = Ok [[A]]
  /\ merkle_root [[A]] = Ok A
  /\ merkle_proof [[A]] 0 = Ok []
  /\ verify_proof keccak A [] A = true.
Proof.
  intros HA. assert (pad32 A = A) as HP by (apply pad32_fixed; lia).
  split; [|split; [|split]].
  - unfold build_merkle_tree. cbn [map]. cbv zeta. rewrite HP.
    simp build_loop. reflexivity.
  - reflexivity.
  - reflexivity.
  - unfold verify_proof. cbn [verify_loop]. rewrite HP.
    apply bytes_eqb_eq. reflexivity.
Qed.

(** C2. Duplicate-last pairing on three 32-byte leaves [A], [B], [C] (distinct
    or not): level 1 of the tree is [[hash(A||B), hash(C||C)]], the root is
    [hash(hash(A||B) || hash(C||C))], and the proof for index 2 is
    [[(C, "right"), (hash(A||B), "left")]]. *)
Theorem three_leaf_tree (A B C : bytes) :
  length A = 32%nat -> length B = 32%nat -> length C = 32%nat ->
  let hAB := keccak (A ++ B) in
  let hCC := keccak (C ++ C) in
  let tree := [[A; B; C]; [hAB; hCC]; [keccak (hAB ++ hCC)]] in
  build_merkle_tree keccak [A; B; C] = Ok tree
  /\ nth_error tree 1 = Some [hAB; hCC]
  /\ merkle_root tree = Ok (keccak (hAB ++ hCC))
  /\ merkle_proof tree 2 = Ok [(C, "right"%string); (hAB, "left"%string)].
Proof.
  intros HA HB HC hAB hCC tree.
  split; [|split; [|split]]; try reflexivity.
  unfold build_merkle_tree. cbn [map]. cbv zeta.
  rewrite !pad32_fixed by lia. simp build_loop.
  unfold next_level, keccak_pair. cbn [pair_up map fst snd app].
  simp build_loop. unfold next_level, keccak_pair. cbn [pair_up map fst snd app].
  simp build_loop. reflexivity.
Qed.

(** ** Leaves longer than 32 bytes *)

(** C9. [pad32] returns a value longer than 32 bytes unchanged, so a non-empty
    list of such leaves is accepted and is level 0 of the tree as it is, and
    every hash input of the first pairing pass, the concatenation of two
    level-0 nodes, is longer than 64 bytes. *)
Theorem oversized_leaves_kept (b : bytes) (leaves : list bytes) :
  (32 < length b)%nat ->
  leaves <> [] ->
  Forall (fun leaf => (32 < length leaf)%nat) leaves ->
  pad32 b = b
  /\ length (pad32 b) = length b
  /\ (exists rest, build_merkle_tree keccak leaves = Ok (leaves :: rest))
  /\ next_level keccak leaves
     = map (fun p => keccak (fst p ++ snd p)) (pair_up leaves)
  /\ Forall (fun p => (64 < length (fst p ++ snd p))%nat) (pair_up leaves).
Proof.
  intros Hb Hne Hall.
  assert (pad32 b = b) as HP by (apply pad32_fixed; lia).
  split; [exact HP|]. split; [now rewrite HP|]. split; [|split].
  - destruct (build_merkle_tree_tower Hne) as [Hbuild _].
    rewrite map_pad32_fixed in Hbuild
      by (eapply Forall_impl; [|exact Hall]; cbn; intros; lia).
    eexists. exact Hbuild.
  - reflexivity.
  - clear Hne. induction leaves as [|x|x y rest IH] using list_pair_ind.
    + constructor.
    + inversion Hall; subst. constructor; [|constructor].
      cbn [fst snd]. rewrite length_app. lia.
    + inversion Hall as [|? ? Hx Hall']; subst.
      inversion Hall' as [|? ? Hy Hall'']; subst.
      cbn [pair_up]. constructor; [|apply IH, Hall''].
      cbn [fst snd]. rewrite length_app. lia.
Qed.

(** ** [verify_proof] and the shape of its steps *)

Lemma verify_loop_alike (p q : list (bytes * string)) :
  Forall2 step_alike p q ->
  forall cur, verify_loop keccak cur q = verify_loop keccak cur p.
Proof.
  induction 1 as [|[s pos] [s' pos'] p q [Hs Hpos] _ IH]; intros cur;
    [reflexivity|].
  cbn [fst snd] in Hs, Hpos. cbn [verify_loop]. cbv zeta.
  assert (pad32 s' = pad32 s) as ->
    by (destruct Hs as [->| ->]; [reflexivity|apply pad32_idempotent]).
  assert (String.eqb pos' "right" = String.eqb pos "right") as ->.
  { destruct Hpos as [->|[Hn ->]]; [reflexivity|].
    apply String.eqb_neq in Hn. rewrite Hn. reflexivity. }
  apply IH.
Qed.

(** C10. [verify_proof] reads a sibling through [pad32] and tests a position
    only against ["right"]: replacing siblings by their zero-left-padded
    32-byte form, and positions other than ["right"] by ["left"], at any
    steps of a proof leaves the result the same, for every leaf and root; and
    a first step whose position is not ["right"] hashes
    [pad32(sibling) || pad32(leaf)], the sibling on the left. *)
Theorem verify_proof_step_shape (leaf root : bytes) (p q : list (bytes * string)) :
  Forall2 step_alike p q ->
  verify_proof keccak leaf q root = verify_proof keccak leaf p root
  /\ forall (sib : bytes) (pos : string),
       pos <> "right"%string ->
       verify_proof keccak leaf ((sib, pos) :: p) root
       = bytes_eqb (verify_loop keccak (keccak (pad32 sib ++ pad32 leaf)) p) root.
Proof.
  intros H. split.
  - unfold verify_proof. rewrite (verify_loop_alike H). reflexivity.
  - intros sib pos Hpos. unfold verify_proof. cbn [verify_loop]. cbv zeta.
    apply String.eqb_neq in Hpos. rewrite Hpos. reflexivity.
Qed.

End EngineProperties.

(** ** The leaf encoder *)

Lemma bytes_fromhex_byte (x : byte) (s : string) :
  bytes_fromhex (String (hex_digit (Z_of_byte x / 16))
                   (String (hex_digit (Z_of_byte x mod 16)) s))
  = t <- bytes_fromhex s ;; Ok (x :: t).
Proof. destruct x; reflexivity. Qed.

(** [bytes.fromhex(b.hex())] is [b]. *)
Lemma bytes_fromhex_hex (b : bytes) : bytes_fromhex (bytes_hex b) = Ok b.
Proof.
  induction b as [|x b IH]; [reflexivity|].
  cbn [bytes_hex]. rewrite bytes_fromhex_byte, IH. reflexivity.
Qed.

Lemma str_from2_bytes_hex (b : bytes) :
  str_from2 (bytes_hex b) = bytes_hex (tl b).
Proof. destruct b; reflexivity. Qed.

(** [bytes.fromhex(h.hex()[2:])] for a [HexBytes] value [h]: [h] before
    hexbytes 1.0, [h] without its first byte from 1.0 on. *)
Lemma fromhex_HexBytes (hexbytes : hexbytes_version) (b : bytes) :
  bytes_fromhex (str_from2 (HexBytes_hex hexbytes b)) = Ok (read_back hexbytes b).
Proof.
  destruct hexbytes; cbn [HexBytes_hex read_back str_from2].
  - apply bytes_fromhex_hex.
  - rewrite str_from2_bytes_hex. apply bytes_fromhex_hex.
Qed.

(** A [to_hex] text, as the data of a record, reads back as its bytes. *)
Lemma fromhex_to_hex (b : bytes) : bytes_fromhex (str_from2 (to_hex b)) = Ok b.
Proof. apply bytes_fromhex_hex. Qed.

Lemma length_big_endian (k : nat) (n : Z) : length (big_endian k n) = k.
Proof.
  revert n. induction k as [|k IH]; intros n; [reflexivity|].
  cbn [big_endian]. rewrite length_app, IH. cbn. lia.
Qed.

(** The eight bytes written out: byte [j] is [n // 256^(7 - j) % 256]. *)
Lemma big_endian_8 (n : Z) :
  big_endian 8 n
  = map (fun j => byte_of_Z (n / 256 ^ j)) [7; 6; 5; 4; 3; 2; 1; 0].
Proof.
  assert (forall z, byte_of_Z (z mod 256) = byte_of_Z z) as Hm
    by (intros z; unfold byte_of_Z; rewrite Z.mod_mod by lia; reflexivity).
  cbn [big_endian map app]. rewrite !Hm, !Z.div_div by lia.
  rewrite Z.div_1_r. reflexivity.
Qed.

Lemma int_to_bytes_fits (n : Z) :
  0 <= n < 2 ^ 64 -> int_to_bytes n 8 = Ok (big_endian 8 n).
Proof.
  intros H. unfold int_to_bytes.
  destruct (Z.ltb_spec n 0); [lia|].
  change (256 ^ Z.of_nat 8) with (2 ^ 64).
  destruct (Z.leb_spec (2 ^ 64) n); [lia|]. reflexivity.
Qed.

Lemma int_to_bytes_overflow (n : Z) :
  n < 0 \/ 2 ^ 64 <= n -> int_to_bytes n 8 = Raise OverflowError.
Proof.
  intros H. unfold int_to_bytes.
  destruct (Z.ltb_spec n 0); [reflexivity|].
  change (256 ^ Z.of_nat 8) with (2 ^ 64).
  destruct (Z.leb_spec (2 ^ 64) n); [reflexivity|lia].
Qed.

Section EncoderProperties.

Variable keccak : bytes -> bytes.
Variable hexbytes : hexbytes_version.

(** What [build_event_leaf] does on a record that has a first topic and whose
    data, after its first two characters, is hexadecimal text for [payload],
    whatever the lengths of its hashes. *)
Lemma build_event_leaf_eval (log : log_entry) (topic0 : bytes)
    (more : list bytes) (payload : bytes) :
  topics log = topic0 :: more ->
  bytes_fromhex (str_from2 (data log)) = Ok payload ->
  build_event_leaf keccak hexbytes log
  = index_bytes <- int_to_bytes (logIndex log) 8 ;;
    Ok (keccak (read_back hexbytes (transactionHash log) ++ index_bytes
                ++ read_back hexbytes topic0 ++ keccak payload)).
Proof.
  intros Ht Hd. unfold build_event_leaf. cbv zeta.
  rewrite fromhex_HexBytes, Ht. cbn [bind]. change (py_index (topic0 :: more) 0)
    with (Ok topic0). cbn [bind].
  rewrite fromhex_HexBytes, Hd. reflexivity.
Qed.

Lemma length_read_back (b : bytes) :
  length (read_back hexbytes b)
  = match hexbytes with
    | Before_1_0 => length b
    | From_1_0 => (length b - 1)%nat
    end.
Proof. destruct hexbytes; cbn [read_back]; [reflexivity|]. destruct b; cbn; lia. Qed.

(** C5, by the installed hexbytes. For a well-formed record (32-byte
    transaction hash, log index in [0, 2^64), 32-byte first topic, data whose
    text after the first two characters is hexadecimal for [payload]) and a
    hash with 32-byte values, [build_event_leaf] returns the hash of
    [read_back txHash || logIndex as 8 big-endian bytes || read_back topic0 ||
    hash(payload)]. Before hexbytes 1.0 that is the 104-byte buffer of the
    docstring, with both hashes whole. From 1.0 on, [hex()[2:]] has taken the
    first byte off each hash and the buffer is 102 bytes long. *)
Theorem build_event_leaf_layout (log : log_entry) (topic0 : bytes)
    (more : list bytes) (payload : bytes) :
  (forall b, length (keccak b) = 32%nat) ->
  length (transactionHash log) = 32%nat ->
  0 <= logIndex log < 2 ^ 64 ->
  topics log = topic0 :: more ->
  length topic0 = 32%nat ->
  bytes_fromhex (str_from2 (data log)) = Ok payload ->
  let buffer := read_back hexbytes (transactionHash log)
                ++ big_endian 8 (logIndex log)
                ++ read_back hexbytes topic0 ++ keccak payload in
  build_event_leaf keccak hexbytes log = Ok (keccak buffer)
  /\ length buffer = match hexbytes with
                     | Before_1_0 => 104%nat
                     | From_1_0 => 102%nat
                     end
  /\ (hexbytes = Before_1_0 ->
      buffer = transactionHash log ++ big_endian 8 (logIndex log)
               ++ topic0 ++ keccak payload)
  /\ (hexbytes = From_1_0 ->
      buffer = tl (transactionHash log) ++ big_endian 8 (logIndex log)
               ++ tl topic0 ++ keccak payload)
  /\ length (big_endian 8 (logIndex log)) = 8%nat
  /\ length (keccak buffer) = 32%nat.
Proof.
  intros Hk Htx Hidx Ht Ht0 Hd buffer.
  split; [|split; [|split; [|split; [|split]]]].
  - rewrite (build_event_leaf_eval _ Ht Hd), int_to_bytes_fits by exact Hidx.
    reflexivity.
  - unfold buffer.
    rewrite !length_app, !length_read_back, length_big_endian, Htx, Ht0, Hk.
    destruct hexbytes; reflexivity.
  - intros E. unfold buffer. rewrite E. reflexivity.
  - intros E. unfold buffer. rewrite E. reflexivity.
  - apply length_big_endian.
  - apply Hk.
Qed.

(** C6, as the code has it. On a record with a first topic and data whose
    text after the first two characters is hexadecimal, [build_event_leaf]
    fails exactly when the log index is negative or does not fit in 8 bytes,
    with [OverflowError]; the lengths of the transaction hash and of the first
    topic are not checked, and a record with a log index in range is encoded
    whatever they are, under either hexbytes. *)
Theorem build_event_leaf_error_contract (log : log_entry) (topic0 : bytes)
    (more : list bytes) (payload : bytes) :
  topics log = topic0 :: more ->
  bytes_fromhex (str_from2 (data log)) = Ok payload ->
  (logIndex log < 0 \/ 2 ^ 64 <= logIndex log ->
   build_event_leaf keccak hexbytes log = Raise OverflowError)
  /\ (0 <= logIndex log < 2 ^ 64 ->
      build_event_leaf keccak hexbytes log
      = Ok (keccak (read_back hexbytes (transactionHash log)
                    ++ big_endian 8 (logIndex log)
                    ++ read_back hexbytes topic0 ++ keccak payload))).
Proof.
  intros Ht Hd. rewrite (build_event_leaf_eval _ Ht Hd). split; intros H.
  - rewrite int_to_bytes_overflow by exact H. reflexivity.
  - rewrite int_to_bytes_fits by exact H. reflexivity.
Qed.

(** The two other ways the encoder can fail, on records outside that shape: no
    first topic, and data that is not hexadecimal text. *)
Lemma build_event_leaf_no_topic (log : log_entry) :
  topics log = [] -> build_event_leaf keccak hexbytes log = Raise IndexError.
Proof.
  intros Ht. unfold build_event_leaf. cbv zeta.
  rewrite fromhex_HexBytes, Ht. reflexivity.
Qed.

Lemma build_event_leaf_bad_data (log : log_entry) (topic0 : bytes)
    (more : list bytes) (e : exn) :
  topics log = topic0 :: more ->
  bytes_fromhex (str_from2 (data log)) = Raise e ->
  build_event_leaf keccak hexbytes log = Raise e.
Proof.
  intros Ht Hd. unfold build_event_leaf. cbv zeta.
  rewrite fromhex_HexBytes, Ht. cbn [bind]. change (py_index (topic0 :: more) 0)
    with (Ok topic0). cbn [bind].
  rewrite fromhex_HexBytes, Hd. reflexivity.
Qed.

End EncoderProperties.

(** * The properties on concrete inputs, with Keccak-256 *)

Lemma roundtrip_inclusion_witness :
  0 <= 2 < len sample_leaves
  /\ exists leaf tree proof root,
       py_index sample_leaves 2 = Ok leaf
       /\ build_merkle_tree Keccak256.keccak256 sample_leaves = Ok tree
       /\ merkle_proof tree 2 = Ok proof
       /\ merkle_root tree = Ok root
       /\ verify_proof Keccak256.keccak256 leaf proof root = true.
Proof.
  assert (0 <= 2 < len sample_leaves) as H by (vm_compute; split; congruence).
  split; [exact H|].
  exact (@roundtrip_inclusion Keccak256.keccak256 sample_leaves 2
           keccak256_length H).
Defined.

Lemma three_leaf_tree_witness :
  (length leaf_a = 32%nat /\ length leaf_b = 32%nat /\ length leaf_c = 32%nat)
  /\ let hAB := Keccak256.keccak256 (leaf_a ++ leaf_b) in
     let hCC := Keccak256.keccak256 (leaf_c ++ leaf_c) in
     let tree := [[leaf_a; leaf_b; leaf_c]; [hAB; hCC];
                  [Keccak256.keccak256 (hAB ++ hCC)]] in
     build_merkle_tree Keccak256.keccak256 [leaf_a; leaf_b; leaf_c] = Ok tree
     /\ nth_error tree 1 = Some [hAB; hCC]
     /\ merkle_root tree = Ok (Keccak256.keccak256 (hAB ++ hCC))
     /\ merkle_proof tree 2 = Ok [(leaf_c, "right"%string); (hAB, "left"%string)].
Proof.
  split; [repeat split|].
  exact (@three_leaf_tree Keccak256.keccak256 leaf_a leaf_b leaf_c
           eq_refl eq_refl eq_refl).
Defined.

(** C3 as the specification states it fails: on the tree of three leaves,
    [merkle_proof(tree, 3)] and [merkle_proof(tree, -1)] both return a proof
    of two steps. *)
Lemma merkle_proof_index_unchecked :
  build_merkle_tree Keccak256.keccak256 sample_leaves = Ok sample_tree
  /\ len sample_leaves = 3
  /\ merkle_proof sample_tree 3
     = Ok [(leaf_c, "left"%string); (hash_ab, "left"%string)]
  /\ merkle_proof sample_tree (-1)
     = Ok [(leaf_b, "left"%string); (hash_ab, "left"%string)].
Proof. repeat split; vm_compute; reflexivity. Qed.

Lemma merkle_proof_outside_leaves_witness :
  build_merkle_tree Keccak256.keccak256 sample_leaves = Ok sample_tree
  /\ (Z.even (len sample_leaves) = true ->
      merkle_proof sample_tree (len sample_leaves) = Raise IndexError)
  /\ (Z.odd (len sample_leaves) = true ->
      exists proof, merkle_proof sample_tree (len sample_leaves) = Ok proof
                    /\ length proof = (length sample_tree - 1)%nat)
  /\ merkle_proof sample_tree (-1)
     = Ok (map (fun level => (nth (length level - 2) level [], "left"%string))
               (slice_init sample_tree)).
Proof.
  assert (build_merkle_tree Keccak256.keccak256 sample_leaves = Ok sample_tree)
    as H by (vm_compute; reflexivity).
  split; [exact H|].
  exact (@merkle_proof_outside_leaves Keccak256.keccak256 sample_leaves
           sample_tree H).
Defined.

Lemma single_leaf_tree_witness :
  length leaf_a = 32%nat
  /\ build_merkle_tree Keccak256.keccak256 [leaf_a] = Ok [[leaf_a]]
  /\ merkle_root [[leaf_a]] = Ok leaf_a
  /\ merkle_proof [[leaf_a]] 0 = Ok []
  /\ verify_proof Keccak256.keccak256 leaf_a [] leaf_a = true.
Proof.
  split; [reflexivity|].
  exact (@single_leaf_tree Keccak256.keccak256 leaf_a eq_refl).
Defined.

Lemma build_merkle_tree_shape_witness :
  sample_leaves <> []
  /\ exists tree root,
       build_merkle_tree Keccak256.keccak256 sample_leaves = Ok tree
       /\ nth_error tree 0 = Some (map pad32 sample_leaves)
       /\ (forall k prev cur,
             nth_error tree k = Some prev -> nth_error tree (S k) = Some cur ->
             length cur = ((length prev + 1) / 2)%nat)
       /\ Forall (fun level => level <> []) tree
       /\ last tree [] = [root]
       /\ merkle_root tree = Ok root.
Proof.
  assert (sample_leaves <> []) as H by discriminate.
  split; [exact H|].
  exact (@build_merkle_tree_shape Keccak256.keccak256 sample_leaves H).
Defined.

Lemma oversized_leaves_kept_witness :
  (32 < length long_leaf)%nat
  /\ pad32 long_leaf = long_leaf
  /\ exists rest,
       build_merkle_tree Keccak256.keccak256 [long_leaf; leaf_a ++ leaf_b]
       = Ok ([long_leaf; leaf_a ++ leaf_b] :: rest).
Proof.
  assert (32 < length long_leaf)%nat as H by (cbn; lia).
  assert (Forall (fun leaf => (32 < length leaf)%nat) [long_leaf; leaf_a ++ leaf_b])
    as HA by (repeat constructor; cbn; lia).
  assert ([long_leaf; leaf_a ++ leaf_b] <> []) as Hne by discriminate.
  pose proof (@oversized_leaves_kept Keccak256.keccak256 long_leaf
                [long_leaf; leaf_a ++ leaf_b] H Hne HA) as T.
  split; [exact H|]. split; [exact (proj1 T)|].
  exact (proj1 (proj2 (proj2 T))).
Defined.

Lemma verify_proof_step_shape_witness :
  Forall2 step_alike [([x01], "up"%string)] [(pad32 [x01], "left"%string)]
  /\ verify_proof Keccak256.keccak256 leaf_a [(pad32 [x01], "left"%string)] leaf_b
     = verify_proof Keccak256.keccak256 leaf_a [([x01], "up"%string)] leaf_b.
Proof.
  assert (Forall2 step_alike [([x01], "up"%string)] [(pad32 [x01], "left"%string)])
    as H.
  { constructor; [|constructor]. split; cbn [fst snd].
    - right. reflexivity.
    - right. split; [discriminate|reflexivity]. }
  split; [exact H|].
  exact (proj1 (@verify_proof_step_shape Keccak256.keccak256 leaf_a leaf_b _ _ H)).
Defined.

Definition transfer_topic : bytes :=
  Keccak256.keccak256 (list_byte_of_string "Transfer(address,address,uint256)").

Lemma build_event_leaf_layout_witness :
  (length (transactionHash sample_log) = 32%nat
   /\ 0 <= logIndex sample_log < 2 ^ 64
   /\ topics sample_log = [transfer_topic; pad32 [x11]; pad32 [x22]]
   /\ bytes_fromhex (str_from2 (data sample_log)) = Ok (pad32 [x01]))
  /\ build_event_leaf Keccak256.keccak256 From_1_0 sample_log
     = Ok (Keccak256.keccak256
             (repeat xab 31 ++ [x00; x00; x00; x00; x00; x00; x00; x05]
              ++ tl transfer_topic ++ Keccak256.keccak256 (pad32 [x01])))
  /\ length (repeat xab 31 ++ [x00; x00; x00; x00; x00; x00; x00; x05]
             ++ tl transfer_topic ++ Keccak256.keccak256 (pad32 [x01]))
     = 102%nat
  /\ build_event_leaf Keccak256.keccak256 Before_1_0 sample_log
     = Ok (Keccak256.keccak256
             (repeat xab 32 ++ [x00; x00; x00; x00; x00; x00; x00; x05]
              ++ transfer_topic ++ Keccak256.keccak256 (pad32 [x01])))
  /\ build_event_leaf Keccak256.keccak256 From_1_0 sample_log
     <> build_event_leaf Keccak256.keccak256 Before_1_0 sample_log.
Proof.
  assert (0 <= logIndex sample_log < 2 ^ 64) as H
    by (vm_compute; split; congruence).
  assert (bytes_fromhex (str_from2 (data sample_log)) = Ok (pad32 [x01])) as Hd
    by (vm_compute; reflexivity).
  pose proof (@build_event_leaf_layout Keccak256.keccak256 From_1_0 sample_log
                transfer_topic _ (pad32 [x01]) keccak256_length eq_refl H
                eq_refl (keccak256_length _) Hd) as T1.
  pose proof (@build_event_leaf_layout Keccak256.keccak256 Before_1_0 sample_log
                transfer_topic _ (pad32 [x01]) keccak256_length eq_refl H
                eq_refl (keccak256_length _) Hd) as T0.
  split; [split; [reflexivity|split; [exact H|split; [reflexivity|exact Hd]]]|].
  split; [exact (proj1 T1)|]. split; [exact (proj1 (proj2 T1))|].
  split; [exact (proj1 T0)|].
  vm_compute. discriminate.
Defined.

(** C6 as the specification states it fails: a record whose transaction hash
    and first topic are not 32 bytes long is encoded, not rejected, under
    either hexbytes. *)
Lemma short_hashes_encoded :
  length (transactionHash short_hash_log) = 1%nat
  /\ topics short_hash_log = [[x02; x03]]
  /\ build_event_leaf Keccak256.keccak256 Before_1_0 short_hash_log
     = Ok (Keccak256.keccak256
             ([x01] ++ [x00; x00; x00; x00; x00; x00; x00; x07]
              ++ [x02; x03] ++ Keccak256.keccak256 []))
  /\ build_event_leaf Keccak256.keccak256 From_1_0 short_hash_log
     = Ok (Keccak256.keccak256
             ([] ++ [x00; x00; x00; x00; x00; x00; x00; x07]
              ++ [x03] ++ Keccak256.keccak256 [])).
Proof. repeat split; vm_compute; reflexivity. Qed.

(** Short hashes again, with data in mixed case and with spaces between its
    bytes, and the same record with a negative log index. *)
Definition spaced_data_log : log_entry := {|
  transactionHash := [x01];
  logIndex := 7;
  topics := [[x02; x03]];
  data := "0xAB cd 0F"
|}.

Definition negative_index_log : log_entry := {|
  transactionHash := [x01];
  logIndex := -1;
  topics := [[x02; x03]];
  data := "0xAB cd 0F"
|}.

Lemma build_event_leaf_error_contract_witness :
  (topics spaced_data_log = [[x02; x03]]
   /\ bytes_fromhex (str_from2 (data spaced_data_log)) = Ok [xab; xcd; x0f]
   /\ 0 <= logIndex spaced_data_log < 2 ^ 64
   /\ (logIndex negative_index_log < 0 \/ 2 ^ 64 <= logIndex negative_index_log))
  /\ build_event_leaf Keccak256.keccak256 From_1_0 spaced_data_log
     = Ok (Keccak256.keccak256
             (read_back From_1_0 [x01] ++ big_endian 8 7
              ++ read_back From_1_0 [x02; x03]
              ++ Keccak256.keccak256 [xab; xcd; x0f]))
  /\ build_event_leaf Keccak256.keccak256 Before_1_0 negative_index_log
     = Raise OverflowError.
Proof.
  assert (bytes_fromhex (str_from2 (data spaced_data_log)) = Ok [xab; xcd; x0f])
    as Hd by (vm_compute; reflexivity).
  assert (0 <= logIndex spaced_data_log < 2 ^ 64) as Hin
    by (vm_compute; split; congruence).
  assert (logIndex negative_index_log < 0 \/ 2 ^ 64 <= logIndex negative_index_log)
    as Hout by (left; vm_compute; reflexivity).
  split; [split; [reflexivity|split; [exact Hd|split; [exact Hin|exact Hout]]]|].
  split.
  - exact (proj2 (@build_event_leaf_error_contract Keccak256.keccak256 From_1_0
                    spaced_data_log [x02; x03] [] _ eq_refl Hd) Hin).
  - exact (proj1 (@build_event_leaf_error_contract Keccak256.keccak256 Before_1_0
                    negative_index_log [x02; x03] [] _ eq_refl Hd) Hout).
Defined.

(** * Further properties of the engine *)

Lemma py_index_In {A : Type} (l : list A) (i : Z) (a : A) :
  py_index l i = Ok a -> In a l.
Proof.
  unfold py_index. cbv zeta.
  destruct ((_ <? 0) || (_ <=? _)); [discriminate|].
  destruct (nth_error l _) as [b|] eqn:E; [|discriminate].
  intros [= <-]. eapply nth_error_In, E.
Qed.

Lemma nth_error_slice_init {A : Type} (l : list A) (k : nat) (a : A) :
  nth_error (slice_init l) k = Some a -> nth_error l k = Some a.
Proof.
  unfold slice_init. intros E.
  assert (k < length l - 1)%nat as B.
  { assert (nth_error (firstn (length l - 1) l) k <> None) as N by congruence.
    apply nth_error_Some in N. rewrite length_firstn in N. lia. }
  rewrite nth_error_firstn in E.
  destruct (Nat.ltb_spec k (length l - 1)); [exact E|lia].
Qed.

(** What the loop of [merkle_proof] returns, whenever it returns: one step per
    level, step [k] with a sibling taken from level [k] and with the position
    ["left"] exactly when bit [k] of the index is set. *)
Lemma proof_loop_steps (levels : list (list bytes)) :
  forall (idx : Z) (acc r : list (bytes * string)),
    proof_loop levels idx acc = Ok r ->
    exists p,
      r = acc ++ p
      /\ length p = length levels
      /\ forall k step,
           nth_error p k = Some step ->
           snd step = (if Z.testbit idx (Z.of_nat k)
                       then "left" else "right")%string
           /\ exists level, nth_error levels k = Some level /\ In (fst step) level.
Proof.
  induction levels as [|level rest IH]; intros idx acc r H.
  - cbn in H. injection H as <-. exists []. rewrite app_nil_r.
    split; [reflexivity|]. split; [reflexivity|].
    intros [|k] step E; discriminate.
  - cbn [proof_loop] in H. cbv zeta in H.
    destruct (if Z.lxor idx 1 <? len level
              then py_index level (Z.lxor idx 1)
              else py_index level idx) as [sib|e] eqn:Hs; [|discriminate].
    cbn [bind] in H.
    destruct (IH _ _ _ H) as (p & -> & Hlen & Hsteps).
    exists ((sib, if idx mod 2 =? 0 then "right"%string else "left"%string) :: p).
    split; [rewrite <- app_assoc; reflexivity|].
    split; [cbn [length]; rewrite Hlen; reflexivity|].
    intros [|k] step E.
    + injection E as <-. cbn [fst snd]. split.
      * change (Z.of_nat 0) with 0. rewrite Z.bit0_odd, Zmod_even, <- Z.negb_odd.
        destruct (Z.odd idx); reflexivity.
      * exists level. split; [reflexivity|].
        destruct (Z.lxor idx 1 <? len level); eapply py_index_In, Hs.
    + cbn [nth_error] in E. destruct (Hsteps k step E) as (Hpos & lv & Hlv & Hin).
      split.
      * rewrite Hpos, Nat2Z.inj_succ, <- Z.div2_bits by lia. reflexivity.
      * exists lv. split; assumption.
Qed.

(** X1. Whenever [merkle_proof(tree, index)] returns, for any tree and index,
    the proof has one step per level but the last, step [k] carries a node of
    level [k], and its position is ["left"] exactly when bit [k] of [index] is
    set: the positions spell the index in binary, low bit first. *)
Theorem merkle_proof_positions (tree : list (list bytes)) (index : Z)
    (proof : list (bytes * string)) :
  merkle_proof tree index = Ok proof ->
  length proof = (length tree - 1)%nat
  /\ forall k step,
       nth_error proof k = Some step ->
       snd step = (if Z.testbit index (Z.of_nat k) then "left" else "right")%string
       /\ exists level, nth_error tree k = Some level /\ In (fst step) level.
Proof.
  unfold merkle_proof. intros H.
  destruct (proof_loop_steps _ _ _ H) as (p & -> & Hlen & Hsteps).
  cbn [app]. split; [rewrite Hlen; apply length_slice_init|].
  intros k step E. destruct (Hsteps k step E) as (Hpos & lv & Hlv & Hin).
  split; [exact Hpos|]. exists lv. split; [|exact Hin].
  apply nth_error_slice_init, Hlv.
Qed.

Lemma merkle_proof_positions_witness :
  merkle_proof sample_tree 2 = Ok [(leaf_c, "right"%string); (hash_ab, "left"%string)]
  /\ length [(leaf_c, "right"%string); (hash_ab, "left"%string)]
     = (length sample_tree - 1)%nat.
Proof.
  assert (merkle_proof sample_tree 2
          = Ok [(leaf_c, "right"%string); (hash_ab, "left"%string)]) as H
    by reflexivity.
  split; [exact H|].
  exact (proj1 (@merkle_proof_positions sample_tree 2 _ H)).
Defined.

Lemma log2_up_half (n : nat) :
  (2 <= n)%nat -> Nat.log2_up n = S (Nat.log2_up ((n + 1) / 2)).
Proof.
  intros Hn.
  pose proof (Nat.div_mod_eq (n + 1) 2) as E.
  pose proof (Nat.mod_upper_bound (n + 1) 2) as U.
  set (m := ((n + 1) / 2)%nat) in *.
  destruct (Nat.eq_dec m 1) as [Hm|Hm].
  - assert (n = 2)%nat as -> by lia. rewrite Hm. reflexivity.
  - assert (1 < m)%nat as Hm' by lia.
    pose proof (Nat.log2_up_spec m Hm') as [Hlo Hhi].
    pose proof (Nat.log2_up_pos m Hm') as Hpos.
    destruct (Nat.log2_up m) as [|h]; [lia|].
    cbn [Nat.pred] in Hlo.
    apply Nat.log2_up_unique; [lia|]. cbn [Nat.pred].
    rewrite !Nat.pow_succ_r' in *. lia.
Qed.

Section FurtherEngine.

Variable keccak : bytes -> bytes.

Lemma tower_height (level : list bytes) (t : list (list bytes)) :
  tower keccak level t -> level <> [] ->
  length t = S (Nat.log2_up (length level)).
Proof.
  induction 1 as [level Hlen|level t Hlen Ht IH]; intros Hne.
  - destruct level as [|x [|y rest]]; [congruence|reflexivity|cbn in Hlen; lia].
  - cbn [length]. rewrite (IH (next_level_nonempty keccak Hne)).
    rewrite length_next_level, div2_S_ceil, <- log2_up_half by exact Hlen.
    reflexivity.
Qed.

Lemma built_tree (leaves : list bytes) (tree : list (list bytes)) :
  build_merkle_tree keccak leaves = Ok tree ->
  leaves <> []
  /\ tree = map pad32 leaves :: build_loop keccak (map pad32 leaves) []
  /\ tower keccak (map pad32 leaves) tree.
Proof.
  intros Hb. assert (leaves <> []) as Hne by (intros ->; discriminate).
  destruct (build_merkle_tree_tower keccak Hne) as [Hb' Ht].
  rewrite Hb' in Hb. injection Hb as <-. auto.
Qed.

(** X2. The tree built from [n] leaves has [ceil(log2(n)) + 1] levels. *)
Theorem build_merkle_tree_height (leaves : list bytes) (tree : list (list bytes)) :
  build_merkle_tree keccak leaves = Ok tree ->
  length tree = S (Nat.log2_up (length leaves)).
Proof.
  intros Hb. destruct (built_tree _ Hb) as (Hne & _ & Ht).
  rewrite (tower_height Ht), length_map; [reflexivity|].
  destruct leaves; cbn; congruence.
Qed.

Lemma build_loop_next (level : list bytes) :
  (2 <= length level)%nat ->
  build_loop keccak level []
  = next_level keccak level :: build_loop keccak (next_level keccak level) [].
Proof.
  intros H. destruct level as [|l [|r rest]]; [cbn in H; lia|cbn in H; lia|].
  simp build_loop. rewrite build_loop_acc. reflexivity.
Qed.

(** Two levels with the same [next_level] give trees that differ in level 0
    only, with the same root. *)
Lemma same_next_level (lv1 lv2 : list bytes) :
  (2 <= length lv1)%nat -> (2 <= length lv2)%nat ->
  next_level keccak lv1 = next_level keccak lv2 ->
  exists rest root,
    build_loop keccak lv1 [] = rest
    /\ build_loop keccak lv2 [] = rest
    /\ merkle_root (lv1 :: rest) = Ok root
    /\ merkle_root (lv2 :: rest) = Ok root.
Proof.
  intros H1 H2 E.
  assert (lv1 <> []) as Hne by (intros ->; cbn in H1; lia).
  pose proof (build_loop_tower keccak lv1) as Ht.
  destruct (tower_shape Ht Hne) as (_ & _ & root & Hlast).
  exists (build_loop keccak lv1 []), root.
  split; [reflexivity|]. split.
  - rewrite (build_loop_next lv1 H1), (build_loop_next lv2 H2), E. reflexivity.
  - assert (build_loop keccak lv1 [] <> []) as Hr
      by (rewrite build_loop_next by assumption; discriminate).
    pose proof (merkle_root_last _ Hlast) as Hroot.
    rewrite merkle_root_cons in Hroot by exact Hr.
    split; rewrite merkle_root_cons by exact Hr; exact Hroot.
Qed.

Lemma pair_up_dup_last (level : list bytes) (d : bytes) :
  Nat.odd (length level) = true ->
  pair_up (level ++ [last level d]) = pair_up level.
Proof.
  induction level as [|a|a b rest IH] using list_pair_ind; intros Hodd.
  - discriminate.
  - reflexivity.
  - change (Nat.odd (length (a :: b :: rest))) with (Nat.odd (length rest)) in Hodd.
    assert (rest <> []) as Hne by (intros ->; discriminate).
    replace (last (a :: b :: rest) d) with (last rest d)
      by (destruct rest; [congruence|reflexivity]).
    cbn [app pair_up]. rewrite IH by exact Hodd. reflexivity.
Qed.

Lemma last_map_pad32 (l : list bytes) (d : bytes) :
  last (map pad32 l) (pad32 d) = pad32 (last l d).
Proof.
  induction l as [|x [|y l] IH]; [reflexivity|reflexivity|].
  cbn [map last] in *. exact IH.
Qed.

(** X4. Duplicate-last pairing does not bind the number of leaves: for an odd
    number [n >= 3] of leaves, appending a copy of the last leaf gives a tree
    with the same levels above level 0 and the same root. *)
Theorem duplicate_last_same_root (leaves : list bytes) (d : bytes) :
  Nat.odd (length leaves) = true ->
  (3 <= length leaves)%nat ->
  exists t1 t2 root,
    build_merkle_tree keccak leaves = Ok t1
    /\ build_merkle_tree keccak (leaves ++ [last leaves d]) = Ok t2
    /\ tl t1 = tl t2
    /\ merkle_root t1 = Ok root
    /\ merkle_root t2 = Ok root.
Proof.
  intros Hodd Hlen.
  assert (leaves <> []) as Hne by (intros ->; discriminate).
  assert (leaves ++ [last leaves d] <> []) as Hne'
    by (destruct leaves; discriminate).
  destruct (build_merkle_tree_tower keccak Hne) as [Hb1 _].
  destruct (build_merkle_tree_tower keccak Hne') as [Hb2 _].
  assert (next_level keccak (map pad32 leaves)
          = next_level keccak (map pad32 (leaves ++ [last leaves d]))) as E.
  { unfold next_level. rewrite map_app. cbn [map].
    rewrite <- last_map_pad32, pair_up_dup_last by (rewrite length_map; exact Hodd).
    reflexivity. }
  destruct (@same_next_level (map pad32 leaves)
              (map pad32 (leaves ++ [last leaves d])))
    as (rest & root & Hr1 & Hr2 & Hroot1 & Hroot2);
    [rewrite length_map; lia|rewrite length_map, length_app; cbn; lia|exact E|].
  rewrite Hr1 in Hb1. rewrite Hr2 in Hb2.
  eexists. eexists. exists root.
  split; [exact Hb1|]. split; [exact Hb2|]. split; [reflexivity|].
  split; assumption.
Qed.

Lemma pair_up_app_even (l1 l2 : list bytes) :
  Nat.even (length l1) = true -> pair_up (l1 ++ l2) = pair_up l1 ++ pair_up l2.
Proof.
  induction l1 as [|a|a b rest IH] using list_pair_ind; intros Hev.
  - reflexivity.
  - discriminate.
  - change (Nat.even (length (a :: b :: rest))) with (Nat.even (length rest)) in Hev.
    cbn [app pair_up]. rewrite IH by exact Hev. reflexivity.
Qed.

(** X5. Leaves longer than 32 bytes are hashed without their lengths, so a
    pair of neighbours does not fix where one leaf ends: at an even position,
    the leaves [x ++ y, z] and [x, y ++ z] (with [x] and [z] of at least 32
    bytes) give trees with the same levels above level 0 and the same root. *)
Theorem leaf_boundary_same_root (before after : list bytes) (x y z : bytes) :
  Nat.even (length before) = true ->
  (32 <= length x)%nat ->
  (32 <= length z)%nat ->
  exists t1 t2 root,
    build_merkle_tree keccak (before ++ [x ++ y; z] ++ after) = Ok t1
    /\ build_merkle_tree keccak (before ++ [x; y ++ z] ++ after) = Ok t2
    /\ tl t1 = tl t2
    /\ merkle_root t1 = Ok root
    /\ merkle_root t2 = Ok root.
Proof.
  intros Hev Hx Hz.
  assert (before ++ [x ++ y; z] ++ after <> []) as Hne1
    by (destruct before; discriminate).
  assert (before ++ [x; y ++ z] ++ after <> []) as Hne2
    by (destruct before; discriminate).
  destruct (build_merkle_tree_tower keccak Hne1) as [Hb1 _].
  destruct (build_merkle_tree_tower keccak Hne2) as [Hb2 _].
  assert (next_level keccak (map pad32 (before ++ [x ++ y; z] ++ after))
          = next_level keccak (map pad32 (before ++ [x; y ++ z] ++ after))) as E.
  { assert (forall u v : bytes,
              (32 <= length u)%nat -> (32 <= length v)%nat ->
              next_level keccak (map pad32 (before ++ [u; v] ++ after))
              = next_level keccak (map pad32 before)
                ++ keccak (u ++ v) :: next_level keccak (map pad32 after)) as N.
    { intros u v Hu Hv. unfold next_level. rewrite map_app.
      rewrite pair_up_app_even by (rewrite length_map; exact Hev).
      cbn [map app pair_up]. rewrite map_app. cbn [map fst snd].
      rewrite !pad32_fixed by assumption. reflexivity. }
    rewrite !N by (rewrite ?length_app; lia).
    rewrite <- app_assoc. reflexivity. }
  destruct (@same_next_level (map pad32 (before ++ [x ++ y; z] ++ after))
              (map pad32 (before ++ [x; y ++ z] ++ after)))
    as (rest & root & Hr1 & Hr2 & Hroot1 & Hroot2);
    [rewrite length_map, length_app; cbn; lia
    |rewrite length_map, length_app; cbn; lia|exact E|].
  rewrite Hr1 in Hb1. rewrite Hr2 in Hb2.
  eexists. eexists. exists root.
  split; [exact Hb1|]. split; [exact Hb2|]. split; [reflexivity|].
  split; assumption.
Qed.

End FurtherEngine.

Lemma build_merkle_tree_height_witness :
  build_merkle_tree Keccak256.keccak256 sample_leaves = Ok sample_tree
  /\ length sample_tree = S (Nat.log2_up (length sample_leaves)).
Proof.
  assert (build_merkle_tree Keccak256.keccak256 sample_leaves = Ok sample_tree)
    as H by (vm_compute; reflexivity).
  split; [exact H|].
  exact (@build_merkle_tree_height Keccak256.keccak256 sample_leaves sample_tree H).
Defined.

Lemma duplicate_last_same_root_witness :
  (Nat.odd (length sample_leaves) = true /\ (3 <= length sample_leaves)%nat)
  /\ exists t1 t2 root,
       build_merkle_tree Keccak256.keccak256 sample_leaves = Ok t1
       /\ build_merkle_tree Keccak256.keccak256
            (sample_leaves ++ [last sample_leaves []]) = Ok t2
       /\ tl t1 = tl t2
       /\ merkle_root t1 = Ok root
       /\ merkle_root t2 = Ok root.
Proof.
  assert (3 <= length sample_leaves)%nat as H by (cbn; lia).
  split; [split; [reflexivity|exact H]|].
  exact (@duplicate_last_same_root Keccak256.keccak256 sample_leaves []
           eq_refl H).
Defined.

Lemma leaf_boundary_same_root_witness :
  (Nat.even (length [leaf_a; leaf_b]) = true
   /\ (32 <= length leaf_a)%nat /\ (32 <= length leaf_c)%nat)
  /\ exists t1 t2 root,
       build_merkle_tree Keccak256.keccak256
         ([leaf_a; leaf_b] ++ [leaf_a ++ [x01]; leaf_c] ++ [leaf_b]) = Ok t1
       /\ build_merkle_tree Keccak256.keccak256
            ([leaf_a; leaf_b] ++ [leaf_a; [x01] ++ leaf_c] ++ [leaf_b]) = Ok t2
       /\ tl t1 = tl t2
       /\ merkle_root t1 = Ok root
       /\ merkle_root t2 = Ok root.
Proof.
  assert (32 <= length leaf_a)%nat as Ha by (cbn; lia).
  assert (32 <= length leaf_c)%nat as Hc by (cbn; lia).
  split; [split; [reflexivity|split; assumption]|].
  exact (@leaf_boundary_same_root Keccak256.keccak256 [leaf_a; leaf_b] [leaf_b]
           leaf_a [x01] leaf_c eq_refl Ha Hc).
Defined.

(** * What a verified proof shows *)

Lemma bytes_eq_dec (a b : bytes) : a = b \/ a <> b.
Proof.
  destruct (bytes_eqb a b) eqn:E.
  - left. apply bytes_eqb_eq, E.
  - right. intros ->. assert (bytes_eqb b b = true) by (apply bytes_eqb_eq; reflexivity).
    congruence.
Qed.

Section FurtherVerify.

Variable keccak : bytes -> bytes.

(** One pass of [verify_proof]'s loop. *)
Definition verify_step (cur : bytes) (step : bytes * string) : bytes :=
  if String.eqb (snd step) "right"
  then keccak_pair keccak cur (pad32 (fst step))
  else keccak_pair keccak (pad32 (fst step)) cur.

Lemma verify_loop_cons (cur : bytes) (step : bytes * string)
    (rest : list (bytes * string)) :
  verify_loop keccak cur (step :: rest)
  = verify_loop keccak (verify_step cur step) rest.
Proof. destruct step. reflexivity. Qed.

Lemma verify_step_binding (c c' : bytes) (step : bytes * string) :
  verify_step c step = verify_step c' step -> c = c' \/ collision keccak.
Proof.
  unfold verify_step, keccak_pair. destruct (String.eqb (snd step) "right"); intros E.
  - destruct (bytes_eq_dec (c ++ pad32 (fst step)) (c' ++ pad32 (fst step))) as [Eq|Ne].
    + left. eapply app_inv_tail, Eq.
    + right. eexists. eexists. split; [exact Ne|exact E].
  - destruct (bytes_eq_dec (pad32 (fst step) ++ c) (pad32 (fst step) ++ c')) as [Eq|Ne].
    + left. eapply app_inv_head, Eq.
    + right. eexists. eexists. split; [exact Ne|exact E].
Qed.

Lemma verify_loop_binding (p : list (bytes * string)) (c c' : bytes) :
  verify_loop keccak c p = verify_loop keccak c' p -> c = c' \/ collision keccak.
Proof.
  revert c c'. induction p as [|step p IH]; intros c c' E.
  - left. exact E.
  - rewrite !verify_loop_cons in E.
    destruct (IH _ _ E) as [Eq|Col]; [|right; exact Col].
    eapply verify_step_binding, Eq.
Qed.

(** X7. A proof and root accept one padded leaf only, short of a hash
    collision: if [verify_proof] returns [True] for two leaves with the same
    proof and root, the leaves are equal after [pad32], or two different
    inputs with the same hash can be named. *)
Theorem verify_proof_binding (leaf leaf' root : bytes) (p : list (bytes * string)) :
  verify_proof keccak leaf p root = true ->
  verify_proof keccak leaf' p root = true ->
  pad32 leaf = pad32 leaf' \/ collision keccak.
Proof.
  unfold verify_proof. intros H H'.
  apply bytes_eqb_eq in H, H'. apply (@verify_loop_binding p). congruence.
Qed.

(** Climbing a tower from index [j] of its first level: the proof, and at
    every level [k] the node at index [j / 2^k], from which the rest of the
    proof leads to the same value as the whole proof does from the start. *)
Lemma proof_loop_tower_nodes (level : list bytes) (t : list (list bytes)) :
  tower keccak level t ->
  (forall b, length (keccak b) = 32%nat) ->
  Forall (fun y => (32 <= length y)%nat) level ->
  forall (j : nat) (x : bytes) (acc : list (bytes * string)),
    nth_error level j = Some x ->
    exists proof,
      proof_loop (slice_init t) (Z.of_nat j) acc = Ok (acc ++ proof)
      /\ forall k lvk,
           nth_error t k = Some lvk ->
           exists node,
             nth_error lvk (j / 2 ^ k) = Some node
             /\ (32 <= length node)%nat
             /\ verify_loop keccak node (skipn k proof)
                = verify_loop keccak x proof.
Proof.
  intros Ht Hk. induction Ht as [level Hlen|level t Hlen Ht IH];
    intros Hpad j x acc E.
  - exists []. split; [cbn; rewrite app_nil_r; reflexivity|].
    intros [|k] lvk Hlv; [|destruct k; discriminate].
    injection Hlv as <-. exists x. rewrite Nat.div_1_r.
    split; [exact E|]. split; [|reflexivity].
    rewrite Forall_forall in Hpad. eapply Hpad, nth_error_In, E.
  - destruct (proof_step _ _ E) as (sib & Hsib & Hread & Hpos & Hdiv).
    destruct (pair_up_nth _ _ E) as (sib' & Hsib' & Hpair).
    assert (sib' = sib) as -> by congruence.
    pose (pos := if Nat.even j then "right"%string else "left"%string).
    pose (up := if Nat.even j then keccak_pair keccak x sib
                else keccak_pair keccak sib x).
    assert (nth_error (next_level keccak level) (j / 2) = Some up) as Hup.
    { unfold next_level. rewrite nth_error_map, Hpair. unfold up.
      destruct (Nat.even j); reflexivity. }
    assert (Forall (fun y => (32 <= length y)%nat) (next_level keccak level)) as Hpad'.
    { unfold next_level. rewrite Forall_map. apply Forall_forall.
      intros q _. unfold keccak_pair. rewrite Hk. lia. }
    destruct (IH Hpad' (j / 2)%nat up (acc ++ [(sib, pos)]) Hup) as (proof & Hloop & Hnodes).
    assert (verify_loop keccak x ((sib, pos) :: proof) = verify_loop keccak up proof)
      as Hstep.
    { cbn [verify_loop]. cbv zeta. rewrite (@pad32_fixed sib).
      - unfold pos, up. destruct (Nat.even j); reflexivity.
      - rewrite Forall_forall in Hpad. eapply Hpad, nth_error_In, Hsib. }
    exists ((sib, pos) :: proof). split.
    + rewrite (slice_init_tower _ Ht). cbn [proof_loop]. cbv zeta.
      rewrite Hread, Hpos, Hdiv. cbn [bind]. fold pos.
      rewrite Hloop, <- app_assoc. reflexivity.
    + intros [|k] lvk Hlv.
      * injection Hlv as <-. exists x. rewrite Nat.div_1_r.
        split; [exact E|]. split; [|reflexivity].
        rewrite Forall_forall in Hpad. eapply Hpad, nth_error_In, E.
      * cbn [nth_error] in Hlv. destruct (Hnodes k lvk Hlv) as (node & Hn & Hl & Hv).
        exists node. split; [|split; [exact Hl|]].
        -- rewrite Nat.pow_succ_r', <- Nat.Div0.div_div. exact Hn.
        -- cbn [skipn]. rewrite Hv, Hstep. reflexivity.
Qed.

(** X6. Interior nodes pass for leaves. For the proof of an index [i] inside
    the leaves, [verify_proof] accepts, at every level [k] of the tree, the
    node at index [i // 2^k] together with the proof without its first [k]
    steps: leaves and interior nodes are hashed alike. *)
Theorem interior_nodes_verify (leaves : list bytes) (i : Z)
    (tree : list (list bytes)) (proof : list (bytes * string)) (root : bytes) :
  (forall b, length (keccak b) = 32%nat) ->
  0 <= i < len leaves ->
  build_merkle_tree keccak leaves = Ok tree ->
  merkle_proof tree i = Ok proof ->
  merkle_root tree = Ok root ->
  forall (k : nat) (level : list bytes),
    nth_error tree k = Some level ->
    exists node,
      py_index level (i / 2 ^ Z.of_nat k) = Ok node
      /\ verify_proof keccak node (skipn k proof) root = true.
Proof.
  intros Hk Hi Hb Hp Hroot k level Hlv.
  destruct (@built_tree _ _ _ Hb) as (Hne & _ & Ht).
  destruct (py_index_in_range leaves Hi) as (leaf & Hnth & _).
  assert (nth_error (map pad32 leaves) (Z.to_nat i) = Some (pad32 leaf)) as Hx
    by (rewrite nth_error_map, Hnth; reflexivity).
  assert (Forall (fun y => (32 <= length y)%nat) (map pad32 leaves)) as Hpad.
  { rewrite Forall_map. apply Forall_forall. intros y _. apply pad32_length. }
  destruct (proof_loop_tower Ht _ [] Hx) as (proof1 & Hloop1 & _ & Hv).
  destruct (proof_loop_tower_nodes Ht Hk Hpad _ [] Hx) as (proof2 & Hloop2 & Hnodes).
  unfold merkle_proof in Hp. rewrite <- (Z2Nat.id i) in Hp by lia.
  assert (proof1 = proof) as -> by (cbn [app] in Hloop1; congruence).
  assert (proof2 = proof) as -> by (cbn [app] in Hloop2; congruence).
  specialize (Hv Hk Hpad). rewrite Hroot in Hv. injection Hv as ->.
  destruct (Hnodes k level Hlv) as (node & Hn & Hl & Hver).
  exists node. split.
  - replace (i / 2 ^ Z.of_nat k) with (Z.of_nat (Z.to_nat i / 2 ^ k)).
    + apply py_index_nat, Hn.
    + rewrite Nat2Z.inj_div, Nat2Z.inj_pow, Z2Nat.id by lia. reflexivity.
  - unfold verify_proof. rewrite pad32_fixed by exact Hl.
    apply bytes_eqb_eq. exact Hver.
Qed.

(** X3. Leading zero bytes are not told apart: the proof for index [i] of the
    tree built from [leaves] is accepted for every value that [pad32] maps
    where it maps [leaves[i]], such as the leaf with zero bytes added or
    removed on the left. *)
Theorem leading_zeros_accepted (leaves : list bytes) (i : Z) (leaf other : bytes)
    (tree : list (list bytes)) (proof : list (bytes * string)) (root : bytes) :
  (forall b, length (keccak b) = 32%nat) ->
  py_index leaves i = Ok leaf ->
  0 <= i < len leaves ->
  pad32 other = pad32 leaf ->
  build_merkle_tree keccak leaves = Ok tree ->
  merkle_proof tree i = Ok proof ->
  merkle_root tree = Ok root ->
  verify_proof keccak other proof root = true.
Proof.
  intros Hk Hleaf Hi Hother Hb Hp Hroot.
  destruct (@built_tree _ _ _ Hb) as (Hne & _ & Ht).
  destruct (py_index_in_range leaves Hi) as (leaf' & Hnth & Hleaf').
  assert (leaf' = leaf) as -> by congruence.
  assert (nth_error (map pad32 leaves) (Z.to_nat i) = Some (pad32 leaf)) as Hx
    by (rewrite nth_error_map, Hnth; reflexivity).
  assert (Forall (fun y => (32 <= length y)%nat) (map pad32 leaves)) as Hpad.
  { rewrite Forall_map. apply Forall_forall. intros y _. apply pad32_length. }
  destruct (proof_loop_tower Ht _ [] Hx) as (proof1 & Hloop1 & _ & Hv).
  unfold merkle_proof in Hp. rewrite <- (Z2Nat.id i) in Hp by lia.
  assert (proof1 = proof) as -> by (cbn [app] in Hloop1; congruence).
  specialize (Hv Hk Hpad). rewrite Hroot in Hv. injection Hv as ->.
  unfold verify_proof. rewrite Hother. apply bytes_eqb_eq. reflexivity.
Qed.

Lemma app_inj_length {A : Type} (a b c d : list A) :
  length a = length b -> a ++ c = b ++ d -> a = b /\ c = d.
Proof.
  revert b. induction a as [|x a IH]; intros [|y b] Hl E; try discriminate.
  - split; [reflexivity|exact E].
  - cbn in E. injection E as -> E. injection Hl as Hl.
    destruct (IH _ Hl E) as [-> ->]. split; reflexivity.
Qed.

Lemma keccak_pair_binding (a b a' b' : bytes) :
  length a = length a' ->
  keccak_pair keccak a b = keccak_pair keccak a' b' ->
  (a = a' /\ b = b')
  \/ (a ++ b <> a' ++ b' /\ keccak (a ++ b) = keccak (a' ++ b')).
Proof.
  unfold keccak_pair. intros Hl E.
  destruct (bytes_eq_dec (a ++ b) (a' ++ b')) as [Eq|Ne].
  - left. exact (app_inj_length _ _ _ _ Hl Eq).
  - right. split; [exact Ne|exact E].
Qed.

Lemma collision_between_mono (xs ys xs' ys' : list bytes) :
  incl xs xs' -> incl ys ys' ->
  collision_between keccak xs ys -> collision_between keccak xs' ys'.
Proof.
  intros Hx Hy (a & b & Ha & Hb & Hne & E).
  exists a, b. split; [apply Hx, Ha|]. split; [apply Hy, Hb|]. split; assumption.
Qed.

Lemma next_level_binding (l1 : list bytes) :
  forall l2 : list bytes,
    length l1 = length l2 ->
    Forall (fun y => length y = 32%nat) l1 ->
    Forall (fun y => length y = 32%nat) l2 ->
    next_level keccak l1 = next_level keccak l2 ->
    l1 = l2
    \/ collision_between keccak (level_hash_inputs l1) (level_hash_inputs l2).
Proof.
  induction l1 as [|a|a b rest IH] using list_pair_ind;
    intros l2 Hlen H1 H2 E.
  - destruct l2; [left; reflexivity|discriminate].
  - destruct l2 as [|a' [|? ?]]; try discriminate.
    inversion H1; inversion H2; subst.
    cbn in E. injection E as E.
    destruct (@keccak_pair_binding a a a' a') as [[-> _]|[Ne Eh]];
      [congruence|exact E|left; reflexivity|].
    right. exists (a ++ a), (a' ++ a').
    split; [left; reflexivity|]. split; [left; reflexivity|]. split; assumption.
  - destruct l2 as [|a' [|b' rest']]; try discriminate.
    inversion H1 as [|? ? Ha H1']; inversion H1' as [|? ? Hb H1''].
    inversion H2 as [|? ? Ha' H2']; inversion H2' as [|? ? Hb' H2'']. subst.
    unfold next_level in E. cbn [pair_up map fst snd] in E.
    injection E as E Erest. cbn [length] in Hlen.
    unfold level_hash_inputs. cbn [pair_up map fst snd].
    destruct (@keccak_pair_binding a b a' b') as [[-> ->]|[Ne Eh]];
      [congruence|exact E| |].
    + destruct (IH rest') as [->|C];
        [lia|assumption|assumption|exact Erest|left; reflexivity|].
      right. eapply collision_between_mono; [| |exact C];
        apply incl_tl, incl_refl.
    + right. exists (a ++ b), (a' ++ b').
      split; [left; reflexivity|]. split; [left; reflexivity|].
      split; assumption.
Qed.

Lemma hash_inputs_step (level : list bytes) (t : list (list bytes)) :
  tower keccak (next_level keccak level) t ->
  hash_inputs (level :: t) = level_hash_inputs level ++ hash_inputs t.
Proof.
  intros Ht. unfold hash_inputs. rewrite (slice_init_tower _ Ht). reflexivity.
Qed.

Lemma tower_binding (lv1 : list bytes) (t1 : list (list bytes)) :
  tower keccak lv1 t1 ->
  (forall b, length (keccak b) = 32%nat) ->
  forall (lv2 : list bytes) (t2 : list (list bytes)),
    tower keccak lv2 t2 ->
    length lv1 = length lv2 ->
    Forall (fun y => length y = 32%nat) lv1 ->
    Forall (fun y => length y = 32%nat) lv2 ->
    last t1 [] = last t2 [] ->
    lv1 = lv2 \/ collision_between keccak (hash_inputs t1) (hash_inputs t2).
Proof.
  intros Ht1 Hk. induction Ht1 as [lv1 Hlen1|lv1 t1 Hlen1 Ht1 IH];
    intros lv2 t2 Ht2 Hlen H1 H2 Hlast.
  - inversion Ht2 as [? Hlen2|? t2' Hlen2 Ht2']; subst; [|lia].
    left. exact Hlast.
  - inversion Ht2 as [? Hlen2|? t2' Hlen2 Ht2']; subst; [lia|].
    rewrite (@hash_inputs_step _ _ Ht1), (@hash_inputs_step _ _ Ht2').
    assert (last (lv1 :: t1) [] = last t1 [] /\ last (lv2 :: t2') [] = last t2' [])
      as [L1 L2].
    { destruct (tower_head Ht1) as [r1 ->]. destruct (tower_head Ht2') as [r2 ->].
      split; reflexivity. }
    rewrite L1, L2 in Hlast.
    assert (forall lv, Forall (fun y => length y = 32%nat) (next_level keccak lv))
      as Hnext.
    { intros lv. unfold next_level. rewrite Forall_map. apply Forall_forall.
      intros q _. apply Hk. }
    destruct (IH _ _ Ht2') as [E|C];
      [rewrite !length_next_level, Hlen; reflexivity
      |apply Hnext|apply Hnext|exact Hlast| |].
    + destruct (next_level_binding Hlen H1 H2 E) as [->|C];
        [left; reflexivity|].
      right. eapply collision_between_mono; [| |exact C];
        apply incl_appl, incl_refl.
    + right. eapply collision_between_mono; [| |exact C];
        apply incl_appr, incl_refl.
Qed.

Lemma pad32_length_exact (b : bytes) :
  (length b <= 32)%nat -> length (pad32 b) = 32%nat.
Proof. intros H. unfold pad32. rewrite length_app, repeat_length. lia. Qed.

(** X8. The root binds the padded leaves of a tree of a given size, short of
    a collision inside the two trees: two lists of the same number of leaves,
    none longer than 32 bytes, whose trees have the same root are equal after
    [pad32], or some input hashed while building the first tree and some
    input hashed while building the second are different and have the same
    hash. *)
Theorem root_binding (leaves1 leaves2 : list bytes) (t1 t2 : list (list bytes))
    (root : bytes) :
  (forall b, length (keccak b) = 32%nat) ->
  Forall (fun leaf => (length leaf <= 32)%nat) leaves1 ->
  Forall (fun leaf => (length leaf <= 32)%nat) leaves2 ->
  length leaves1 = length leaves2 ->
  build_merkle_tree keccak leaves1 = Ok t1 ->
  build_merkle_tree keccak leaves2 = Ok t2 ->
  merkle_root t1 = Ok root ->
  merkle_root t2 = Ok root ->
  map pad32 leaves1 = map pad32 leaves2
  \/ collision_between keccak (hash_inputs t1) (hash_inputs t2).
Proof.
  intros Hk H1 H2 Hlen Hb1 Hb2 Hr1 Hr2.
  destruct (@built_tree _ _ _ Hb1) as (Hne1 & _ & Ht1).
  destruct (@built_tree _ _ _ Hb2) as (Hne2 & _ & Ht2).
  assert (forall L t, tower keccak (map pad32 L) t -> L <> [] ->
                      merkle_root t = Ok root -> last t [] = [root]) as Hlast.
  { intros L t Ht Hne Hr.
    assert (map pad32 L <> []) as Hne' by (destruct L; cbn; congruence).
    destruct (tower_shape Ht Hne') as (_ & _ & r & Hl).
    rewrite (merkle_root_last _ Hl) in Hr. injection Hr as ->. exact Hl. }
  assert (forall L, Forall (fun leaf => (length leaf <= 32)%nat) L ->
                    Forall (fun y => length y = 32%nat) (map pad32 L)) as Hpad.
  { intros L HL. rewrite Forall_map. eapply Forall_impl; [|exact HL].
    intros b Hb. apply pad32_length_exact, Hb. }
  apply (tower_binding Ht1 Hk Ht2).
  - rewrite !length_map. exact Hlen.
  - apply Hpad, H1.
  - apply Hpad, H2.
  - rewrite (Hlast _ _ Ht1 Hne1 Hr1), (Hlast _ _ Ht2 Hne2 Hr2). reflexivity.
Qed.

End FurtherVerify.

Definition sample_proof : list (bytes * string) :=
  [(leaf_c, "right"%string); (hash_ab, "left"%string)].

Lemma verify_proof_binding_witness :
  (verify_proof Keccak256.keccak256 leaf_c sample_proof sample_root = true
   /\ verify_proof Keccak256.keccak256 (x00 :: leaf_c) sample_proof sample_root
      = false)
  /\ (pad32 leaf_c = pad32 leaf_c \/ collision Keccak256.keccak256).
Proof.
  assert (verify_proof Keccak256.keccak256 leaf_c sample_proof sample_root = true)
    as H by (vm_compute; reflexivity).
  split; [split; [exact H|vm_compute; reflexivity]|].
  exact (@verify_proof_binding Keccak256.keccak256 leaf_c leaf_c sample_root
           sample_proof H H).
Defined.

Lemma interior_nodes_verify_witness :
  (0 <= 2 < len sample_leaves
   /\ build_merkle_tree Keccak256.keccak256 sample_leaves = Ok sample_tree
   /\ merkle_proof sample_tree 2 = Ok sample_proof
   /\ merkle_root sample_tree = Ok sample_root)
  /\ exists node,
       py_index [hash_ab; hash_cc] (2 / 2 ^ Z.of_nat 1) = Ok node
       /\ verify_proof Keccak256.keccak256 node (skipn 1 sample_proof) sample_root
          = true.
Proof.
  assert (0 <= 2 < len sample_leaves) as Hi by (vm_compute; split; congruence).
  assert (build_merkle_tree Keccak256.keccak256 sample_leaves = Ok sample_tree)
    as Hb by (vm_compute; reflexivity).
  assert (merkle_proof sample_tree 2 = Ok sample_proof) as Hp by reflexivity.
  assert (merkle_root sample_tree = Ok sample_root) as Hr by reflexivity.
  split; [split; [exact Hi|split; [exact Hb|split; [exact Hp|exact Hr]]]|].
  exact (@interior_nodes_verify Keccak256.keccak256 sample_leaves 2 sample_tree
           sample_proof sample_root keccak256_length Hi Hb Hp Hr 1%nat
           [hash_ab; hash_cc] eq_refl).
Defined.

Definition short_leaf_root : bytes :=
  Eval vm_compute in Keccak256.keccak256 (pad32 [x01] ++ leaf_b).

Lemma leading_zeros_accepted_witness :
  (py_index [[x01]; leaf_b] 0 = Ok [x01]
   /\ pad32 [x00; x00; x01] = pad32 [x01]
   /\ build_merkle_tree Keccak256.keccak256 [[x01]; leaf_b]
      = Ok [[pad32 [x01]; leaf_b]; [short_leaf_root]]
   /\ merkle_proof [[pad32 [x01]; leaf_b]; [short_leaf_root]] 0
      = Ok [(leaf_b, "right"%string)])
  /\ verify_proof Keccak256.keccak256 [x00; x00; x01]
       [(leaf_b, "right"%string)] short_leaf_root = true.
Proof.
  assert (0 <= 0 < len [[x01]; leaf_b]) as Hi by (vm_compute; split; congruence).
  assert (build_merkle_tree Keccak256.keccak256 [[x01]; leaf_b]
          = Ok [[pad32 [x01]; leaf_b]; [short_leaf_root]]) as Hb
    by (vm_compute; reflexivity).
  split; [split; [reflexivity|split; [reflexivity|split; [exact Hb|reflexivity]]]|].
  exact (@leading_zeros_accepted Keccak256.keccak256 [[x01]; leaf_b] 0 [x01]
           [x00; x00; x01] _ _ _ keccak256_length eq_refl Hi eq_refl Hb
           eq_refl eq_refl).
Defined.

Lemma root_binding_witness :
  ([[x01]; leaf_b] <> [[x00; x01]; leaf_b]
   /\ Forall (fun leaf => (length leaf <= 32)%nat) [[x01]; leaf_b]
   /\ Forall (fun leaf => (length leaf <= 32)%nat) [[x00; x01]; leaf_b]
   /\ build_merkle_tree Keccak256.keccak256 [[x01]; leaf_b]
      = Ok [[pad32 [x01]; leaf_b]; [short_leaf_root]]
   /\ build_merkle_tree Keccak256.keccak256 [[x00; x01]; leaf_b]
      = Ok [[pad32 [x01]; leaf_b]; [short_leaf_root]]
   /\ merkle_root [[pad32 [x01]; leaf_b]; [short_leaf_root]] = Ok short_leaf_root)
  /\ (map pad32 [[x01]; leaf_b] = map pad32 [[x00; x01]; leaf_b]
      \/ collision_between Keccak256.keccak256
           (hash_inputs [[pad32 [x01]; leaf_b]; [short_leaf_root]])
           (hash_inputs [[pad32 [x01]; leaf_b]; [short_leaf_root]])).
Proof.
  assert (Forall (fun leaf => (length leaf <= 32)%nat) [[x01]; leaf_b]) as HF1
    by (repeat constructor).
  assert (Forall (fun leaf => (length leaf <= 32)%nat) [[x00; x01]; leaf_b])
    as HF2 by (repeat constructor).
  assert (build_merkle_tree Keccak256.keccak256 [[x01]; leaf_b]
          = Ok [[pad32 [x01]; leaf_b]; [short_leaf_root]]) as Hb1
    by (vm_compute; reflexivity).
  assert (build_merkle_tree Keccak256.keccak256 [[x00; x01]; leaf_b]
          = Ok [[pad32 [x01]; leaf_b]; [short_leaf_root]]) as Hb2
    by (vm_compute; reflexivity).
  assert (merkle_root [[pad32 [x01]; leaf_b]; [short_leaf_root]]
          = Ok short_leaf_root) as Hr by reflexivity.
  split;
    [split; [discriminate|split; [exact HF1|split; [exact HF2|
       split; [exact Hb1|split; [exact Hb2|exact Hr]]]]]|].
  exact (@root_binding Keccak256.keccak256 [[x01]; leaf_b] [[x00; x01]; leaf_b]
           _ _ short_leaf_root keccak256_length HF1 HF2 eq_refl
           Hb1 Hb2 Hr Hr).
Defined.

(** * Further properties of the leaf encoder *)

Lemma Z_of_byte_of_Z (z : Z) : Z_of_byte (byte_of_Z z) = z mod 256.
Proof.
  unfold Z_of_byte, byte_of_Z.
  pose proof (Z.mod_pos_bound z 256 ltac:(lia)) as B.
  destruct (Byte.of_N (Z.to_N (z mod 256))) as [b|] eqn:E.
  - apply Byte.to_of_N in E. rewrite E. lia.
  - apply Byte.of_N_None_iff in E. lia.
Qed.

(** [to_bytes] is one-to-one on the integers that fit. *)
Lemma big_endian_injective (k : nat) :
  forall n m : Z,
    0 <= n < 256 ^ Z.of_nat k -> 0 <= m < 256 ^ Z.of_nat k ->
    big_endian k n = big_endian k m -> n = m.
Proof.
  induction k as [|k IH]; intros n m Hn Hm E.
  - change (256 ^ Z.of_nat 0) with 1 in *. lia.
  - rewrite Nat2Z.inj_succ, Z.pow_succ_r in Hn, Hm by lia.
    cbn [big_endian] in E. apply app_inj_tail in E. destruct E as [Ehi Elo].
    apply (f_equal Z_of_byte) in Elo. rewrite !Z_of_byte_of_Z, !Z.mod_mod in Elo by lia.
    assert (n / 256 = m / 256) as Ediv.
    { apply IH; [| |exact Ehi].
      - split; [apply Z.div_pos; lia|apply Z.div_lt_upper_bound; lia].
      - split; [apply Z.div_pos; lia|apply Z.div_lt_upper_bound; lia]. }
    rewrite (Z.div_mod n 256), (Z.div_mod m 256) by lia. congruence.
Qed.

(** [bytes.fromhex] raises nothing but [ValueError]. *)
Lemma bytes_fromhex_raises (s : string) (e : exn) :
  bytes_fromhex s = Raise e -> e = ValueError.
Proof.
  revert e.
  induction s as [s IH] using (well_founded_induction
    (Wf_nat.well_founded_ltof _ String.length)).
  unfold Wf_nat.ltof in IH. intros e H.
  destruct s as [|c rest]; [discriminate|]. cbn [bytes_fromhex] in H.
  destruct (is_space c).
  - apply (IH rest); [cbn; lia|exact H].
  - destruct (hex_value c) as [hi|]; [|congruence].
    destruct rest as [|d rest']; [congruence|].
    destruct (hex_value d) as [lo|]; [|congruence].
    destruct (bytes_fromhex rest') as [t|e'] eqn:E; [discriminate|].
    cbn [bind] in H. injection H as <-.
    apply (IH rest'); [cbn; lia|exact E].
Qed.

Section FurtherEncoder.

Variable keccak : bytes -> bytes.
Variable hexbytes : hexbytes_version.

(** X9. The leaf binds what it is made of, short of a collision on the very
    inputs hashed: two well-formed records (32-byte transaction hash and
    first topic, log index in [0, 2^64), hexadecimal data) with the same leaf
    agree on the transaction hash and the first topic as the encoder reads
    them back (whole before hexbytes 1.0, without the first byte from 1.0
    on), on the log index and on the data payload; or their two buffers, or
    their two payloads, are different inputs with the same hash. *)
Theorem build_event_leaf_binding (log1 log2 : log_entry) (topic1 topic2 : bytes)
    (more1 more2 : list bytes) (payload1 payload2 leaf : bytes) :
  length (transactionHash log1) = 32%nat ->
  length (transactionHash log2) = 32%nat ->
  0 <= logIndex log1 < 2 ^ 64 ->
  0 <= logIndex log2 < 2 ^ 64 ->
  topics log1 = topic1 :: more1 -> length topic1 = 32%nat ->
  topics log2 = topic2 :: more2 -> length topic2 = 32%nat ->
  bytes_fromhex (str_from2 (data log1)) = Ok payload1 ->
  bytes_fromhex (str_from2 (data log2)) = Ok payload2 ->
  build_event_leaf keccak hexbytes log1 = Ok leaf ->
  build_event_leaf keccak hexbytes log2 = Ok leaf ->
  let buffer1 := read_back hexbytes (transactionHash log1)
                 ++ big_endian 8 (logIndex log1)
                 ++ read_back hexbytes topic1 ++ keccak payload1 in
  let buffer2 := read_back hexbytes (transactionHash log2)
                 ++ big_endian 8 (logIndex log2)
                 ++ read_back hexbytes topic2 ++ keccak payload2 in
  (read_back hexbytes (transactionHash log1)
   = read_back hexbytes (transactionHash log2)
   /\ logIndex log1 = logIndex log2
   /\ read_back hexbytes topic1 = read_back hexbytes topic2
   /\ payload1 = payload2)
  \/ (buffer1 <> buffer2 /\ keccak buffer1 = keccak buffer2)
  \/ (payload1 <> payload2 /\ keccak payload1 = keccak payload2).
Proof.
  intros Hx1 Hx2 Hi1 Hi2 Ht1 Hl1 Ht2 Hl2 Hd1 Hd2 Hb1 Hb2 buffer1 buffer2.
  rewrite (build_event_leaf_eval keccak hexbytes _ Ht1 Hd1), int_to_bytes_fits
    in Hb1 by exact Hi1.
  rewrite (build_event_leaf_eval keccak hexbytes _ Ht2 Hd2), int_to_bytes_fits
    in Hb2 by exact Hi2.
  cbn [bind] in Hb1, Hb2. fold buffer1 in Hb1. fold buffer2 in Hb2.
  assert (keccak buffer1 = keccak buffer2) as Hh by congruence.
  destruct (bytes_eq_dec buffer1 buffer2) as [Eq|Ne];
    [|right; left; split; [exact Ne|exact Hh]].
  pose proof (length_big_endian 8 (logIndex log1)) as Le1.
  pose proof (length_big_endian 8 (logIndex log2)) as Le2.
  pose proof (@big_endian_injective 8 (logIndex log1) (logIndex log2) Hi1 Hi2)
    as Inj.
  unfold buffer1, buffer2 in Eq.
  remember (big_endian 8 (logIndex log1)) as e1 eqn:He1.
  remember (big_endian 8 (logIndex log2)) as e2 eqn:He2.
  clear He1 He2 Hb1 Hb2 Hh.
  apply app_inj_length in Eq;
    [|rewrite !length_read_back; destruct hexbytes; congruence].
  destruct Eq as [Etx Eq].
  apply app_inj_length in Eq; [|congruence]. destruct Eq as [Eidx Eq].
  apply app_inj_length in Eq;
    [|rewrite !length_read_back; destruct hexbytes; congruence].
  destruct Eq as [Etopic Ehash].
  apply Inj in Eidx.
  destruct (bytes_eq_dec payload1 payload2) as [Ep|Np].
  - left. auto.
  - right. right. split; [exact Np|exact Ehash].
Qed.

(** X10. The order of the encoder's failures: a record with no topic raises
    [IndexError] whatever its other fields, and a record with a topic whose
    data (after its first two characters) is not hexadecimal text raises
    [ValueError], also when its log index does not fit in 8 bytes. *)
Theorem build_event_leaf_error_order (log : log_entry) :
  (topics log = [] -> build_event_leaf keccak hexbytes log = Raise IndexError)
  /\ (topics log <> [] ->
      (forall raw, bytes_fromhex (str_from2 (data log)) <> Ok raw) ->
      build_event_leaf keccak hexbytes log = Raise ValueError).
Proof.
  split.
  - apply build_event_leaf_no_topic.
  - intros Ht Hd. destruct (topics log) as [|t0 more] eqn:E; [congruence|].
    destruct (bytes_fromhex (str_from2 (data log))) as [raw|e] eqn:Ed.
    + destruct (Hd raw). reflexivity.
    + rewrite (bytes_fromhex_raises _ Ed) in Ed.
      apply (build_event_leaf_bad_data keccak hexbytes _ E Ed).
Qed.

End FurtherEncoder.

(** [sample_log] with another first byte in its transaction hash, no further
    topics, and the same first topic, index and data. *)
Definition other_hash_log : log_entry := {|
  transactionHash := x00 :: repeat xab 31;
  logIndex := 5;
  topics := [transfer_topic];
  data := to_hex (pad32 [x01])
|}.

Definition sample_leaf : bytes :=
  Eval vm_compute in
    match build_event_leaf Keccak256.keccak256 From_1_0 sample_log with
    | Ok leaf => leaf
    | Raise _ => []
    end.

Lemma build_event_leaf_binding_witness :
  (transactionHash sample_log <> transactionHash other_hash_log
   /\ length (transactionHash sample_log) = 32%nat
   /\ length (transactionHash other_hash_log) = 32%nat
   /\ 0 <= logIndex sample_log < 2 ^ 64
   /\ bytes_fromhex (str_from2 (data sample_log)) = Ok (pad32 [x01])
   /\ build_event_leaf Keccak256.keccak256 From_1_0 sample_log = Ok sample_leaf
   /\ build_event_leaf Keccak256.keccak256 From_1_0 other_hash_log
      = Ok sample_leaf)
  /\ ((read_back From_1_0 (transactionHash sample_log)
       = read_back From_1_0 (transactionHash other_hash_log)
       /\ logIndex sample_log = logIndex other_hash_log
       /\ read_back From_1_0 transfer_topic = read_back From_1_0 transfer_topic
       /\ pad32 [x01] = pad32 [x01])
      \/ (read_back From_1_0 (transactionHash sample_log)
            ++ big_endian 8 (logIndex sample_log)
            ++ read_back From_1_0 transfer_topic
            ++ Keccak256.keccak256 (pad32 [x01])
          <> read_back From_1_0 (transactionHash other_hash_log)
             ++ big_endian 8 (logIndex other_hash_log)
             ++ read_back From_1_0 transfer_topic
             ++ Keccak256.keccak256 (pad32 [x01])
          /\ Keccak256.keccak256
               (read_back From_1_0 (transactionHash sample_log)
                ++ big_endian 8 (logIndex sample_log)
                ++ read_back From_1_0 transfer_topic
                ++ Keccak256.keccak256 (pad32 [x01]))
             = Keccak256.keccak256
                 (read_back From_1_0 (transactionHash other_hash_log)
                  ++ big_endian 8 (logIndex other_hash_log)
                  ++ read_back From_1_0 transfer_topic
                  ++ Keccak256.keccak256 (pad32 [x01])))
      \/ (pad32 [x01] <> pad32 [x01]
          /\ Keccak256.keccak256 (pad32 [x01])
             = Keccak256.keccak256 (pad32 [x01]))).
Proof.
  assert (0 <= logIndex sample_log < 2 ^ 64) as H
    by (vm_compute; split; congruence).
  assert (bytes_fromhex (str_from2 (data sample_log)) = Ok (pad32 [x01])) as Hd
    by (vm_compute; reflexivity).
  assert (build_event_leaf Keccak256.keccak256 From_1_0 sample_log
          = Ok sample_leaf) as Hb1 by (vm_compute; reflexivity).
  assert (build_event_leaf Keccak256.keccak256 From_1_0 other_hash_log
          = Ok sample_leaf) as Hb2 by (vm_compute; reflexivity).
  split;
    [split; [discriminate|split; [reflexivity|split; [reflexivity|
       split; [exact H|split; [exact Hd|split; [exact Hb1|exact Hb2]]]]]]|].
  exact (@build_event_leaf_binding Keccak256.keccak256 From_1_0
           sample_log other_hash_log transfer_topic transfer_topic _ _
           (pad32 [x01]) (pad32 [x01]) sample_leaf
           eq_refl eq_refl H H eq_refl (keccak256_length _)
           eq_refl (keccak256_length _) Hd Hd Hb1 Hb2).
Defined.

(** * The presentation helpers *)

Lemma length_bytes_hex (b : bytes) :
  String.length (bytes_hex b) = (2 * length b)%nat.
Proof.
  induction b as [|x b IH]; [reflexivity|].
  cbn [bytes_hex String.length length]. rewrite IH. lia.
Qed.

(** X11. [to_hex] can be read back: [bytes.fromhex(to_hex(b)[2:])] is [b], so
    two byte strings with the same text are equal, and the text is
    [2 + 2 * len(b)] characters long. *)
Theorem to_hex_roundtrip (b : bytes) :
  bytes_fromhex (str_from2 (to_hex b)) = Ok b
  /\ String.length (to_hex b) = (2 + 2 * length b)%nat
  /\ forall b' : bytes, to_hex b' = to_hex b -> b' = b.
Proof.
  assert (forall c, bytes_fromhex (str_from2 (to_hex c)) = Ok c) as R
    by (intros c; apply bytes_fromhex_hex).
  split; [apply R|]. split.
  - unfold to_hex. cbn [String.length]. rewrite length_bytes_hex. reflexivity.
  - intros b' E. pose proof (R b') as Rb'. rewrite E, R in Rb'. congruence.
Qed.

Lemma list_ascii_append (s t : string) :
  list_ascii_of_string (s ++ t)
  = (list_ascii_of_string s ++ list_ascii_of_string t)%list.
Proof. induction s as [|c s IH]; cbn; [reflexivity|]. rewrite IH. reflexivity. Qed.

Lemma string_append_inv_tail (s1 s2 t : string) :
  (s1 ++ t = s2 ++ t)%string -> s1 = s2.
Proof.
  intros E. apply (f_equal list_ascii_of_string) in E.
  rewrite !list_ascii_append in E. apply app_inv_tail in E.
  apply (f_equal string_of_list_ascii) in E.
  rewrite !string_of_list_ascii_of_string in E. exact E.
Qed.

(** [str] is one-to-one on the integers. *)
Lemma str_int_injective (a b : Z) : str_int a = str_int b -> a = b.
Proof.
  unfold str_int. intros E.
  assert (Some (Z.to_int a) = Some (Z.to_int b)) as E'
    by (rewrite <- !NilEmpty.isi, E; reflexivity).
  injection E' as E'. apply (f_equal Z.of_int) in E'.
  rewrite !DecimalZ.of_to in E'. exact E'.
Qed.

(** A chain id the dict does not list gets the default. *)
Lemma network_name_unknown (chain_id : Z) :
  ~ In chain_id (map fst NETWORKS) ->
  network_name chain_id
  = ("Unknown (chain ID " ++ str_int chain_id ++ ")")%string.
Proof.
  intros Hn. unfold network_name, NETWORKS in *. cbn [map fst In] in Hn.
  cbn [dict_get].
  repeat match goal with
         | |- context [?k =? chain_id] =>
             destruct (Z.eqb_spec k chain_id); [exfalso; apply Hn; tauto|]
         end.
  reflexivity.
Qed.

Lemma network_name_known (chain_id : Z) :
  In chain_id (map fst NETWORKS) ->
  In (chain_id, network_name chain_id) NETWORKS.
Proof.
  unfold network_name, NETWORKS. cbn [map fst In dict_get].
  intros [<-|[<-|[<-|[<-|[<-|[]]]]]]; cbn; tauto.
Qed.

(** X12. [network_name] never gives two chain ids the same name: the five
    listed names differ from each other and from every ["Unknown (chain ID
    n)"] text, and those texts differ for different [n]. *)
Theorem network_name_injective (a b : Z) :
  network_name a = network_name b -> a = b.
Proof.
  assert (forall z, In z (map fst NETWORKS) \/ ~ In z (map fst NETWORKS)) as Dec.
  { intros z. destruct (in_dec Z.eq_dec z (map fst NETWORKS)); tauto. }
  assert (forall z s, In (z, s) NETWORKS ->
                      forall u, s <> ("Unknown (chain ID " ++ u)%string) as Hk.
  { unfold NETWORKS. cbn [In]. intros z s H u.
    repeat destruct H as [H|H]; try (injection H as <- <-; cbn; discriminate).
    destruct H. }
  destruct (Dec a) as [Ha|Ha], (Dec b) as [Hb|Hb].
  - apply network_name_known in Ha, Hb. intros E. rewrite E in Ha.
    revert Ha Hb. generalize (network_name b). intros s.
    unfold NETWORKS. cbn [In].
    intros [Ha|[Ha|[Ha|[Ha|[Ha|[]]]]]] [Hb|[Hb|[Hb|[Hb|[Hb|[]]]]]];
      injection Ha as <- <-; inversion Hb; subst; reflexivity.
  - rewrite (network_name_unknown Hb). intros E.
    apply network_name_known in Ha. destruct (Hk _ _ Ha _ E).
  - rewrite (network_name_unknown Ha). intros E. symmetry in E.
    apply network_name_known in Hb. destruct (Hk _ _ Hb _ E).
  - rewrite (network_name_unknown Ha), (network_name_unknown Hb). intros E.
    cbn in E. injection E as E.
    apply string_append_inv_tail in E. apply str_int_injective, E.
Qed.

(** * The run after the logs are fetched *)

Lemma length_map_result {A B : Type} (f : A -> result B) (l : list A)
    (out : list B) :
  map_result f l = Ok out -> length out = length l.
Proof.
  revert out. induction l as [|x l IH]; intros out H.
  - injection H as <-. reflexivity.
  - cbn [map_result] in H. destruct (f x) as [y|e]; [|discriminate].
    cbn [bind] in H. destruct (map_result f l) as [ys|e]; [|discriminate].
    cbn [bind] in H. injection H as <-. cbn [length]. rewrite (IH ys eq_refl).
    reflexivity.
Qed.

Section FurtherMain.

Variable keccak : bytes -> bytes.
Variable hexbytes : hexbytes_version.

(** X13. How [main] ends once the logs are fetched, for a hash with 32-byte
    values. No logs: [sys.exit(0)]. A record that does not encode: that
    record's exception, before any index test. Otherwise, with [n] records: an
    index outside [0, n) is [sys.exit(1)], so [merkle_proof] is never called
    with one, and an index inside is reported with a proof that
    [verify_proof] accepts, so the self-check never prints a failure. *)
Theorem main_after_fetch_outcomes (logs : list log_entry) (index : Z) :
  (forall b, length (keccak b) = 32%nat) ->
  (logs = [] -> main_after_fetch keccak hexbytes logs index = Ok (Exit 0))
  /\ (forall e, logs <> [] ->
        map_result (build_event_leaf keccak hexbytes) logs = Raise e ->
        main_after_fetch keccak hexbytes logs index = Raise e)
  /\ (forall leaves, logs <> [] ->
        map_result (build_event_leaf keccak hexbytes) logs = Ok leaves ->
        (index < 0 \/ len logs <= index ->
         main_after_fetch keccak hexbytes logs index = Ok (Exit 1))
        /\ (0 <= index < len logs ->
            exists root proof,
              main_after_fetch keccak hexbytes logs index
              = Ok (Report root index proof true))).
Proof.
  intros Hk. split; [intros ->; reflexivity|]. split.
  - intros e Hne He. unfold main_after_fetch.
    destruct logs as [|l logs]; [congruence|]. rewrite He. reflexivity.
  - intros leaves Hne Hl.
    pose proof (length_map_result _ _ Hl) as Hlen.
    assert (len leaves = len logs) as Hlen' by (unfold len; congruence).
    assert (leaves <> []) as Hne'.
    { destruct logs; [congruence|]. destruct leaves; [discriminate|congruence]. }
    destruct (build_merkle_tree_tower keccak Hne') as [Hb Ht].
    assert (map pad32 leaves <> []) as Hne''
      by (destruct leaves; cbn; congruence).
    destruct (tower_shape Ht Hne'') as (_ & _ & root & Hlast).
    pose proof (merkle_root_last _ Hlast) as Hroot.
    assert (main_after_fetch keccak hexbytes logs index
            = if (index <? 0) || (index >=? len leaves) then Ok (Exit 1)
              else leaf <- py_index leaves index ;;
                   proof <- merkle_proof
                              (map pad32 leaves
                               :: build_loop keccak (map pad32 leaves) []) index ;;
                   Ok (Report root index proof
                         (verify_proof keccak leaf proof root))) as Hmain.
    { unfold main_after_fetch. destruct logs as [|l logs]; [congruence|].
      rewrite Hl. cbn [bind]. rewrite Hb. cbn [bind]. rewrite Hroot.
      reflexivity. }
    rewrite Hmain, Hlen'. split.
    + intros Hout. destruct (Z.ltb_spec index 0); [reflexivity|].
      destruct (Z.geb_spec index (len logs)); [reflexivity|lia].
    + intros Hin. destruct (Z.ltb_spec index 0); [lia|].
      destruct (Z.geb_spec index (len logs)); [lia|]. cbn [orb].
      rewrite <- Hlen' in Hin.
      destruct (py_index_in_range leaves Hin) as (leaf & Hnth & Hleaf).
      assert (nth_error (map pad32 leaves) (Z.to_nat index) = Some (pad32 leaf))
        as Hx by (rewrite nth_error_map, Hnth; reflexivity).
      destruct (proof_loop_tower Ht _ [] Hx) as (proof & Hloop & _ & Hv).
      assert (Forall (fun y => (32 <= length y)%nat) (map pad32 leaves)) as Hpad.
      { rewrite Forall_map. apply Forall_forall. intros y _. apply pad32_length. }
      specialize (Hv Hk Hpad). rewrite Hroot in Hv. injection Hv as Hv.
      exists root, proof. rewrite Hleaf. cbn [bind].
      unfold merkle_proof. rewrite <- (Z2Nat.id index) at 1 by lia.
      rewrite Hloop. cbn [bind app]. unfold verify_proof.
      rewrite <- Hv.
      assert (bytes_eqb root root = true) as -> by (apply bytes_eqb_eq; reflexivity).
      reflexivity.
Qed.

End FurtherMain.

Definition short_hash_leaf : bytes :=
  Eval vm_compute in
    match build_event_leaf Keccak256.keccak256 From_1_0 short_hash_log with
    | Ok leaf => leaf
    | Raise _ => []
    end.

Lemma main_after_fetch_outcomes_witness :
  main_after_fetch Keccak256.keccak256 From_1_0 [] 0 = Ok (Exit 0)
  /\ main_after_fetch Keccak256.keccak256 From_1_0 [sample_log; short_hash_log] 2
     = Ok (Exit 1)
  /\ exists root proof,
       main_after_fetch Keccak256.keccak256 From_1_0 [sample_log; short_hash_log] 1
       = Ok (Report root 1 proof true).
Proof.
  pose proof (@main_after_fetch_outcomes Keccak256.keccak256 From_1_0
                [sample_log; short_hash_log] 1 keccak256_length) as T1.
  pose proof (@main_after_fetch_outcomes Keccak256.keccak256 From_1_0
                [sample_log; short_hash_log] 2 keccak256_length) as T2.
  pose proof (@main_after_fetch_outcomes Keccak256.keccak256 From_1_0
                [] 0 keccak256_length) as T0.
  assert (map_result (build_event_leaf Keccak256.keccak256 From_1_0)
            [sample_log; short_hash_log] = Ok [sample_leaf; short_hash_leaf])
    as Hl by (vm_compute; reflexivity).
  assert ([sample_log; short_hash_log] <> []) as Hne by discriminate.
  assert (2 < 0 \/ len [sample_log; short_hash_log] <= 2) as Hout
    by (right; vm_compute; congruence).
  assert (0 <= 1 < len [sample_log; short_hash_log]) as Hin
    by (vm_compute; split; congruence).
  split; [exact (proj1 T0 eq_refl)|]. split.
  - exact (proj1 (proj2 (proj2 T2) _ Hne Hl) Hout).
  - exact (proj2 (proj2 (proj2 T1) _ Hne Hl) Hin).
Defined.

Lemma network_name_injective_witness :
  network_name 10 = network_name 10 /\ 10 = 10.
Proof.
  split; [reflexivity|].
  exact (@network_name_injective 10 10 eq_refl).
Defined.
